(** * PseudographicText: a bitmap-glyph text renderer for a character console

    A shallow embedding of [2Lab_Pseudographic_Text/main.cpp] and the
    properties of its class [PseudographicText]:

    - [std]: the pieces of the C++ standard library the class uses
      ([std::string::find], [std::to_string], formatted extraction of a
      [char] from an [std::ifstream]);
    - [Mem]: heap arrays ([new char[n]] and nested arrays of them), indexed
      reads and writes, and counted [for] loops;
    - [PseudographicText]: the class, its setters, the private helpers
      [createCharTable], [createText], [output], and both [print]s;
    - [FirstLab]: the integer part of the points and vectors of
      [FirstLab/firstlab.cpp].

    Conventions.  A computation that can touch storage is in [option]:
    [None] stands for an access outside an allocated array (undefined
    behaviour in C++), so [f x = Some y] says that the call is well defined
    and returns [y].  Storage that was allocated and never written holds
    [Indet], an indeterminate value: it stands for whichever byte the
    storage happens to hold, and says nothing about which.  What is computed
    from it is indeterminate again: a cell copied from it, and a cell chosen
    by comparing it with ['1'] and ['0'], is [Indet], whether the program
    then holds that byte, [textChar] or [backgroundChar].  Where the byte
    matters the content of the storage is given explicitly
    ([createCharTable_over]).
    [int] values are in [Z], sizes and indices ([size_t], non-negative loop
    counters) are in [nat]; overflow of [int] and [size_t] arithmetic is not
    modelled (the sizes involved are a string length times 5 or 7).  A loop
    bounded by [fontSize] runs [Z.to_nat fontSize] times, and an array of
    [fontSize] elements has as many; [fontSize] is 5 or 7 in every object a
    program can have.  A file is the sequence of characters its stream
    delivers. *)

From Stdlib Require Import ZArith Ascii String DecimalString Lia.
From stdpp Require Import list strings.

Local Open Scope nat_scope.

(** ** The standard library, as far as the class uses it *)

Module std.

(** [s.find(c)]: position of the first occurrence of [c], [None] for
    [std::string::npos]. *)
Fixpoint find (s : list ascii) (c : ascii) : option nat :=
  match s with
  | [] => None
  | d :: s' => if Ascii.eqb d c then Some 0 else S <$> find s' c
  end.

(** [std::to_string(int)]. *)
Definition to_string (z : Z) : list ascii :=
  list_ascii_of_string (NilZero.string_of_int (Z.to_int z)).

(** [std::isspace] in the classic locale: space, [\t], [\n], [\v], [\f],
    [\r]. *)
Definition isspace (c : ascii) : bool :=
  let n := nat_of_ascii c in
  (n =? 32) || ((9 <=? n) && (n <=? 13)).

(** An input file stream: the characters not yet read and the fail state
    ([failbit], set by a failed [open] or a failed extraction; nothing in
    the program clears it). *)
Record ifstream := mkStream { pending : list ascii; fail : bool }.

(** [in.open(name)] on the content of the named file, if there is one. *)
Definition open (content : option (list ascii)) : ifstream :=
  match content with
  | Some cs => mkStream cs false
  | None => mkStream [] true
  end.

(** Leading white space skipped by the sentry of a formatted input. *)
Fixpoint skipws (cs : list ascii) : list ascii :=
  match cs with
  | [] => []
  | c :: cs' => if isspace c then skipws cs' else cs
  end.

(** [in >> ch] for a [char]: on a stream in the fail state nothing is
    read; otherwise white space is skipped and the next character is
    taken, and at the end of the input the stream fails.  The result is
    the extracted character, if any, and the stream afterwards. *)
Definition extract (i : ifstream) : option ascii * ifstream :=
  if fail i then (None, i)
  else match skipws (pending i) with
       | [] => (None, mkStream [] true)
       | c :: cs => (Some c, mkStream cs false)
       end.

End std.

(** ** Heap arrays and loops *)

Module Mem.

(** One [char] of storage: a character, or [Indet] for an indeterminate
    value (it is not a byte of its own: it stands for any of them). *)
Inductive cell := Indet | Chr (c : ascii).

#[global] Instance cell_eq_dec : EqDecision cell.
Proof. solve_decision. Defined.

(** What [in >> x] leaves in [x], which held [old]. *)
Definition stored (old : cell) (got : option ascii) : cell :=
  match got with Some c => Chr c | None => old end.

(** [new char[n]]. *)
Definition new_array (n : nat) : list cell := replicate n Indet.

(** [a[j][c]] and [a[j][c] = v] on a [char**]. *)
Definition read2 (a : list (list cell)) (j c : nat) : option cell :=
  r ← a !! j; r !! c.

Definition write2 (a : list (list cell)) (j c : nat) (v : cell)
  : option (list (list cell)) :=
  r ← a !! j;
  if decide (c < length r) then Some (<[j := <[c := v]> r]> a) else None.

(** [a[i][j][k]] and [a[i][j][k] = v] on a [char***]. *)
Definition read3 (a : list (list (list cell))) (i j k : nat) : option cell :=
  g ← a !! i; read2 g j k.

Definition write3 (a : list (list (list cell))) (i j k : nat) (v : cell)
  : option (list (list (list cell))) :=
  g ← a !! i; g' ← write2 g j k v; Some (<[i := g']> a).

(** [for (int i = lo; i < lo + n; i++) body], threading the state. *)
Fixpoint for_loop {St : Type} (lo n : nat) (body : nat → St → option St)
  (s : St) : option St :=
  match n with
  | 0 => Some s
  | S n' => s' ← body lo s; for_loop (S lo) n' body s'
  end.

Definition for_upto {St : Type} (n : nat) (body : nat → St → option St)
  : St → option St := for_loop 0 n body.

End Mem.

Export Mem(cell, Indet, Chr).

(** ** The console *)

Module Console.

(** What the program does to the console, in program order: the two
    console calls of [windows.h] it uses, and one character written to
    [std::cout]. *)
Inductive event :=
| SetConsoleTextAttribute (a : Z)
| SetConsoleCursorPosition (x y : Z)
| Put (c : cell).

(** The console: its active colour attribute and everything done to it so
    far, oldest first. *)
Record t := mk { attribute : Z; trace : list event }.

Definition emit (e : event) (w : t) : t :=
  mk (match e with SetConsoleTextAttribute a => a | _ => attribute w end)
     (trace w ++ [e]).

(** [COORD] has [SHORT] fields: an [int] stored there keeps its low 16
    bits, read as a signed number. *)
Definition to_SHORT (z : Z) : Z := ((z + 32768) mod 65536 - 32768)%Z.

End Console.

Export Console(SetConsoleTextAttribute, SetConsoleCursorPosition, Put).

(** ** The enumerations *)

Inductive Color :=
| Black | Blue | Green | Cyan | Red | Magenta | Yellow | White
| BrightBlack | BrightBlue | BrightGreen | BrightCyan | BrightRed
| BrightMagenta | BrightYellow | BrightWhite.

(** [static_cast<int>(color)]. *)
Definition Color_to_int (c : Color) : Z :=
  match c with
  | Black => 0 | Blue => 1 | Green => 2 | Cyan => 3
  | Red => 4 | Magenta => 5 | Yellow => 6 | White => 7
  | BrightBlack => 8 | BrightBlue => 9 | BrightGreen => 10 | BrightCyan => 11
  | BrightRed => 12 | BrightMagenta => 13 | BrightYellow => 14
  | BrightWhite => 15
  end%Z.

(** [enum class FontSize { Small = 5, Big = 7 }]: a scoped enumeration.  Its
    underlying type is [int], so every [int] is one of its values:
    [static_cast<FontSize>(n)] makes a [FontSize] of any [n], and
    [static_cast<int>], here [FontSize_to_int], gives [n] back.  Two of the
    values have names. *)
Record FontSize := static_cast_FontSize { FontSize_to_int : Z }.

Definition Small : FontSize := static_cast_FontSize 5.

Definition Big : FontSize := static_cast_FontSize 7.

(** ** The class *)

Module PseudographicText.

(** The data members. *)
Record t := mk {
  str : list ascii;
  textChar : ascii;
  backgroundChar : ascii;
  fontSize : Z;
  textColor : Color
}.

Definition availableChars : list ascii :=
  list_ascii_of_string "ABCDEFGHIJKLMNOPQRSTUVWXYZ .,!?0123456789".

(** The files the program can open, by name. *)
Definition files := list ascii → option (list ascii).

(** What a call can change besides the object: the console and the
    characters written to [std::cerr]. *)
Record world := mkWorld { console : Console.t; cerr : list ascii }.

Definition on_cerr (s : list ascii) (w : world) : world :=
  mkWorld (console w) (cerr w ++ s).

(** The default constructor: the default member initialisers. *)
Definition default : t := mk [] "#" " " (FontSize_to_int Small) BrightWhite.

(** The first character of [s] that [availableChars.find] does not find:
    where the loop of [setString] returns early. *)
Fixpoint first_unavailable (s : list ascii) : option ascii :=
  match s with
  | [] => None
  | c :: s' =>
      match std.find availableChars c with
      | None => Some c
      | Some _ => first_unavailable s'
      end
  end.

(** The line [setString] writes to [std::cerr] about [c]. *)
Definition unavailable_message (c : ascii) : list ascii :=
  list_ascii_of_string "Error: character '" ++ [c]
    ++ list_ascii_of_string "' is unavailable" ++ ["010"%char].

Definition setString (s : list ascii) (this : t) (w : world) : t * world :=
  match first_unavailable s with
  | Some c => (this, on_cerr (unavailable_message c) w)
  | None =>
      (mk s (textChar this) (backgroundChar this) (fontSize this)
         (textColor this), w)
  end.

Definition setTextChar (c : ascii) (this : t) : t :=
  mk (str this) c (backgroundChar this) (fontSize this) (textColor this).

Definition setBackgroundChar (c : ascii) (this : t) : t :=
  mk (str this) (textChar this) c (fontSize this) (textColor this).

Definition setFontSize (size : FontSize) (this : t) : t :=
  mk (str this) (textChar this) (backgroundChar this) (FontSize_to_int size)
     (textColor this).

Definition setTextColor (color : Color) (this : t) : t :=
  mk (str this) (textChar this) (backgroundChar this) (fontSize this) color.

(** The five-argument constructor: the member initialisers (with [str]
    empty and [fontSize] at its default), then the two setters of its
    body. *)
Definition construct (s : list ascii) (tc bc : ascii) (size : FontSize)
  (color : Color) (w : world) : t * world :=
  let this := mk [] tc bc (FontSize_to_int Small) color in
  let '(this, w) := setString s this w in
  (setFontSize size this, w).

(** [state()]: the members, in one line. *)
Definition state (this : t) : list ascii :=
  list_ascii_of_string "(String: " ++ str this
    ++ list_ascii_of_string ", TextChar: " ++ [textChar this]
    ++ list_ascii_of_string ", BackgroundChar: " ++ [backgroundChar this]
    ++ list_ascii_of_string ", FontSize: " ++ std.to_string (fontSize this)
    ++ list_ascii_of_string ", TextColor: "
    ++ std.to_string (Color_to_int (textColor this))
    ++ list_ascii_of_string ")".

(** The file [createCharTable] opens. *)
Definition table_file_name (this : t) : list ascii :=
  list_ascii_of_string "font_size_" ++ std.to_string (fontSize this)
    ++ list_ascii_of_string ".txt".

(** [in >> charTable[i][j][k]], the body of the loops of
    [createCharTable]. *)
Definition load_mark (i j k : nat) (s : list (list (list cell)) * std.ifstream)
  : option (list (list (list cell)) * std.ifstream) :=
  let '(charTable, in_) := s in
  old ← Mem.read3 charTable i j k;
  let '(got, in_) := std.extract in_ in
  charTable ← Mem.write3 charTable i j k (Mem.stored old got);
  Some (charTable, in_).

(** [createCharTable]: allocate [availableChars.size()] glyphs of
    [fontSize] rows of [fontSize] cells, then read the file into them, row
    index outermost.  The stream state is never tested. *)
Definition createCharTable (this : t) (fs : files)
  : option (list (list (list cell))) :=
  let n := Z.to_nat (fontSize this) in
  let charTable :=
    replicate (length availableChars) (replicate n (Mem.new_array n)) in
  let in_ := std.open (fs (table_file_name this)) in
  r ← Mem.for_upto n (λ j,
        Mem.for_upto (length availableChars) (λ i,
          Mem.for_upto n (λ k, load_mark i j k)))
        (charTable, in_);
  Some r.1.

(** The body of the loops of [createText]: the mark [k] of row [j] of the
    glyph of [str[i]] is copied to [text[j][i * fontSize + k]], then
    replaced by [textChar] if it is ['1'] and by [backgroundChar] if it is
    ['0'].  For an indeterminate mark the cell is left [Indet]: which of
    the three the code writes depends on the byte in storage, and [Indet]
    stands for all of them. *)
Definition draw_mark (this : t) (charTable : list (list (list cell)))
  (i j k : nat) (text : list (list cell)) : option (list (list cell)) :=
  let n := Z.to_nat (fontSize this) in
  c ← str this !! i;
  p ← std.find availableChars c;
  m ← Mem.read3 charTable p j k;
  text ← Mem.write2 text j (i * n + k) m;
  if decide (m = Chr "1") then
    Mem.write2 text j (i * n + k) (Chr (textChar this))
  else if decide (m = Chr "0") then
    Mem.write2 text j (i * n + k) (Chr (backgroundChar this))
  else Some text.

(** [createText]: allocate [fontSize] rows of [str.size() * fontSize] cells
    and fill them character by character, row by row. *)
Definition createText (this : t) (charTable : list (list (list cell)))
  : option (list (list cell)) :=
  let n := Z.to_nat (fontSize this) in
  let text := replicate n (Mem.new_array (length (str this) * n)) in
  Mem.for_upto (length (str this)) (λ i,
    Mem.for_upto n (λ j,
      Mem.for_upto n (λ k, draw_mark this charTable i j k)))
    text.

(** The attribute [output] leaves behind: [Black * 16 + BrightWhite]. *)
Definition default_attribute : Z :=
  (Color_to_int Black * 16 + Color_to_int BrightWhite)%Z.

(** The body of the inner loop of [output]: [text[i][j]] goes to
    [std::cout], and [backgroundChar] after it when [j + 1] is a multiple
    of [fontSize]. *)
Definition show_cell (this : t) (text : list (list cell)) (i j : nat)
  (w : Console.t) : option Console.t :=
  c ← Mem.read2 text i j;
  let w := Console.emit (Put c) w in
  Some (if decide (Z.rem (Z.of_nat j + 1) (fontSize this) = 0%Z)
        then Console.emit (Put (Chr (backgroundChar this))) w
        else w).

(** The body of the outer loop of [output]: the cursor goes to the start
    of the row, the cells follow, then a line feed. *)
Definition show_row (this : t) (text : list (list cell)) (line column : Z)
  (i : nat) (w : Console.t) : option Console.t :=
  let n := Z.to_nat (fontSize this) in
  let w := Console.emit
             (SetConsoleCursorPosition (Console.to_SHORT column)
                (Console.to_SHORT (line + Z.of_nat i))) w in
  w ← Mem.for_upto (length (str this) * n) (show_cell this text i) w;
  Some (Console.emit (Put (Chr "010")) w).

(** [output]: colour, cursor, the rows, then the default colour. *)
Definition output (this : t) (text : list (list cell)) (line column : Z)
  (w : Console.t) : option Console.t :=
  let n := Z.to_nat (fontSize this) in
  let w := Console.emit
             (SetConsoleTextAttribute (Color_to_int (textColor this))) w in
  let w := Console.emit
             (SetConsoleCursorPosition (Console.to_SHORT column)
                (Console.to_SHORT line)) w in
  w ← Mem.for_upto n (show_row this text line column) w;
  Some (Console.emit (SetConsoleTextAttribute default_attribute) w).

(** [print(line, column)]; the two [delete] helpers at its end only free
    the arrays. *)
Definition print (this : t) (line column : Z) (fs : files) (w : world)
  : option world :=
  charTable ← createCharTable this fs;
  text ← createText this charTable;
  c ← output this text line column (console w);
  Some (mkWorld c (cerr w)).


End PseudographicText.

Import PseudographicText.

(** ** Notions used in the statements *)

(** [n] consecutive characters from [first] on. *)
Definition char_range (first : ascii) (n : nat) : list ascii :=
  (λ k, ascii_of_nat (nat_of_ascii first + k)) <$> seq 0 n.

(** The supported alphabet as it is described: the letters [A] to [Z], the
    space, the four punctuation marks, the digits [0] to [9]. *)
Definition alphabet : list ascii :=
  char_range "A" 26 ++ [" "; "."; ","; "!"; "?"]%char ++ char_range "0" 10.

(** A content all of whose characters are supported. *)
Definition valid (s : list ascii) : Prop := Forall (λ c, c ∈ alphabet) s.

(** A [char**] of [h] rows of [w] cells, a [char***] of [n] such. *)
Definition rect (h w : nat) (a : list (list cell)) : Prop :=
  length a = h ∧ Forall (λ r, length r = w) a.

Definition cube (n h w : nat) (t : list (list (list cell))) : Prop :=
  length t = n ∧ Forall (rect h w) t.

(** The side of the glyphs of an object, as a size. *)
Definition side (this : PseudographicText.t) : nat := Z.to_nat (fontSize this).

(** The marks of a glyph resource: its characters other than white space;
    a missing resource has none. *)
Definition marks (content : option (list ascii)) : list ascii :=
  match content with
  | Some cs => filter (λ c, ¬ std.isspace c) cs
  | None => []
  end.

Definition mark_at (ms : list ascii) (p : nat) : cell :=
  match ms !! p with Some c => Chr c | None => Indet end.

(** The marks a stream still holds. *)
Definition stream_marks (i : std.ifstream) : list ascii :=
  if std.fail i then [] else filter (λ c, ¬ std.isspace c) (std.pending i).

(** The place in the resource of mark [k] of row [j] of glyph [i]. *)
Definition mark_pos (n i j k : nat) : nat :=
  (j * length availableChars + i) * n + k.

(** The glyphs rebuilt from the interleaved layout: the marks come row index
    by row index, within a row index character by character in table order,
    [n] marks each; so mark [k] of row [j] of glyph [i] is mark number
    [(j * #characters + i) * n + k]. *)
Definition reconstruct (n : nat) (ms : list ascii) : list (list (list cell)) :=
  (λ i, (λ j, (λ k, mark_at ms (mark_pos n i j k)) <$> seq 0 n) <$> seq 0 n)
    <$> seq 0 (length availableChars).

(** The loop invariant of [createCharTable] after [N] extractions from a
    resource with marks [ms]: the table has its shape, the stream holds
    the marks from [N] on, the cells of the first [N] places hold their
    marks and the others are as allocated. *)
Definition loaded (ms : list ascii) (n N : nat)
  (s : list (list (list cell)) * std.ifstream) : Prop :=
  cube (length availableChars) n n s.1 ∧
  stream_marks s.2 = drop N ms ∧
  ∀ i j k, i < length availableChars → j < n → k < n →
    Mem.read3 s.1 i j k =
      Some (if decide (mark_pos n i j k < N) then mark_at ms (mark_pos n i j k)
            else Indet).

(** What composition makes of a mark. *)
Definition substitute (this : PseudographicText.t) (m : cell) : cell :=
  if decide (m = Chr "1") then Chr (textChar this)
  else if decide (m = Chr "0") then Chr (backgroundChar this)
  else m.

(** A table all of whose marks are ink or blank. *)
Definition binary (t : list (list (list cell))) : Prop :=
  Forall (Forall (Forall (λ m, m = Chr "1" ∨ m = Chr "0"))) t.

(** The mark [createText] reads for cell [k] of row [j] of character [i]
    of the content. *)
Definition glyph_mark (this : PseudographicText.t)
  (charTable : list (list (list cell))) (i j k : nat) : option cell :=
  c ← str this !! i; p ← std.find availableChars c; Mem.read3 charTable p j k.

(** The turn of the loops of [createText] in which that cell is written. *)
Definition draw_time (n i j k : nat) : nat := (i * n + j) * n + k.

(** The loop invariant of [createText] after [N] turns: the buffer has its
    shape, the cells of the first [N] turns hold their substituted marks
    and the others are as allocated. *)
Definition drawn (this : PseudographicText.t)
  (charTable : list (list (list cell))) (N : nat) (text : list (list cell))
  : Prop :=
  rect (side this) (length (str this) * side this) text ∧
  ∀ i j k, i < length (str this) → j < side this → k < side this →
    Mem.read2 text j (i * side this + k) =
      if decide (draw_time (side this) i j k < N)
      then substitute this <$> glyph_mark this charTable i j k
      else Some Indet.

(** The objects a program can have: made by a constructor, changed by the
    setters ([print] and [state] are [const]); a [FontSize] argument is any
    value of the enumeration, named or cast. *)
Inductive reachable : PseudographicText.t → Prop :=
| reach_default : reachable default
| reach_construct s tc bc size color w :
    reachable (construct s tc bc size color w).1
| reach_setString s this w :
    reachable this → reachable (setString s this w).1
| reach_setTextChar c this :
    reachable this → reachable (setTextChar c this)
| reach_setBackgroundChar c this :
    reachable this → reachable (setBackgroundChar c this)
| reach_setFontSize size this :
    reachable this → reachable (setFontSize size this)
| reach_setTextColor color this :
    reachable this → reachable (setTextColor color this).

(** A size with a name. *)
Definition named (size : FontSize) : Prop := size = Small ∨ size = Big.

(** The objects of a program every [FontSize] argument of which is [Small]
    or [Big]. *)
Inductive reachable_named : PseudographicText.t → Prop :=
| named_default : reachable_named default
| named_construct s tc bc size color w :
    named size → reachable_named (construct s tc bc size color w).1
| named_setString s this w :
    reachable_named this → reachable_named (setString s this w).1
| named_setTextChar c this :
    reachable_named this → reachable_named (setTextChar c this)
| named_setBackgroundChar c this :
    reachable_named this → reachable_named (setBackgroundChar c this)
| named_setFontSize size this :
    named size → reachable_named this →
    reachable_named (setFontSize size this)
| named_setTextColor color this :
    reachable_named this → reachable_named (setTextColor color this).

(** What [output] writes for one row of the buffer, described by glyphs:
    the [n] cells of each in turn, each followed by the spacing
    character. *)
Definition spaced_row (n len : nat) (bc : ascii) (r : list cell)
  : list Console.event :=
  mjoin ((λ g, (Put <$> take n (drop (g * n) r)) ++ [Put (Chr bc)])
           <$> seq 0 len).

(** What [output] does for row [i] of the buffer: the cursor goes to the
    row's start, the spaced row is written, then a line feed. *)
Definition shown_row (this : PseudographicText.t) (text : list (list cell))
  (line column : Z) (i : nat) : list Console.event :=
  SetConsoleCursorPosition (Console.to_SHORT column)
    (Console.to_SHORT (line + Z.of_nat i))
  :: spaced_row (side this) (length (str this)) (backgroundChar this)
       (match text !! i with Some r => r | None => [] end)
  ++ [Put (Chr "010")].

(** What [output] does in all: the colour of the text, the cursor at the
    origin, the rows from top to bottom, the default colour. *)
Definition shown (this : PseudographicText.t) (text : list (list cell))
  (line column : Z) : list Console.event :=
  [SetConsoleTextAttribute (Color_to_int (textColor this));
   SetConsoleCursorPosition (Console.to_SHORT column) (Console.to_SHORT line)]
  ++ mjoin (shown_row this text line column <$> seq 0 (side this))
  ++ [SetConsoleTextAttribute default_attribute].


(** ** Sample data *)

(** A console in the usual grey on black, nothing on the error stream. *)
Definition sample_world : world := mkWorld (Console.mk 7 []) [].

(** Every file name resolves to [pattern] repeated 1100 times. *)
Definition sample_files (pattern : string) : files :=
  λ _, Some (mjoin (replicate 1100 (list_ascii_of_string pattern))).

(** No file can be opened. *)
Definition no_files : files := λ _, None.

Definition sample_text : PseudographicText.t :=
  mk (list_ascii_of_string "HI") "#" " " 5 BrightWhite.

(** The table [createCharTable] loads for [sample_text] from marks that
    alternate, and from marks every third of which is an [x]. *)
Definition sample_table : list (list (list cell)) :=
  reconstruct 5 (marks (sample_files "10 " [])).

Definition sample_table_x : list (list (list cell)) :=
  reconstruct 5 (marks (sample_files "1x0 " [])).

(** The buffers [createText] makes of them for [sample_text]. *)
Definition sample_buffer : list (list cell) :=
  (λ r, Chr <$> list_ascii_of_string r)
    <$> [" # # # # #"; "# # # # # "; " # # # # #"; "# # # # # ";
         " # # # # #"]%string.

Definition sample_buffer_x : list (list cell) :=
  (λ r, Chr <$> list_ascii_of_string r)
    <$> [" #x #x #x "; "#x #x #x #"; "x #x #x #x"; " #x #x #x ";
         "#x #x #x #"]%string.

(** ** Composition and printing as functions *)

(** Row [j] of the glyph [createText] uses for the character [c]; empty
    where there is none. *)
Definition glyph_row (charTable : list (list (list cell))) (c : ascii)
  (j : nat) : list cell :=
  from_option id []
    (p ← std.find availableChars c; g ← charTable !! p; g !! j).

(** The buffer described row by row: row [j] is, for the characters of the
    content from left to right, row [j] of their glyphs with the marks
    substituted, one after the other. *)
Definition compose (this : PseudographicText.t)
  (charTable : list (list (list cell))) : list (list cell) :=
  (λ j, mjoin ((λ c, substitute this <$> glyph_row charTable c j)
                 <$> str this))
    <$> seq 0 (side this).

(** [createCharTable] with the content that the storage of the table has
    when [new] returns it made explicit: the loops of [createCharTable],
    run on [storage].  ([createCharTable] is this on storage of
    indeterminate content.) *)
Definition createCharTable_over (storage : list (list (list cell)))
  (this : PseudographicText.t) (fs : files)
  : option (list (list (list cell))) :=
  let n := Z.to_nat (fontSize this) in
  let in_ := std.open (fs (table_file_name this)) in
  r ← Mem.for_upto n (λ j,
        Mem.for_upto (length availableChars) (λ i,
          Mem.for_upto n (λ k, load_mark i j k)))
        (storage, in_);
  Some r.1.

(** [print] likewise, with the table loaded over [storage]. *)
Definition print_over (storage : list (list (list cell)))
  (this : PseudographicText.t) (line column : Z) (fs : files) (w : world)
  : option world :=
  charTable ← createCharTable_over storage this fs;
  text ← createText this charTable;
  c ← output this text line column (console w);
  Some (mkWorld c (cerr w)).

(** The loop invariant of [createCharTable_over] after [N] extractions: as
    [loaded], with the cells that got no mark holding what [storage]
    held. *)
Definition loaded_over (storage : list (list (list cell))) (ms : list ascii)
  (n N : nat) (s : list (list (list cell)) * std.ifstream) : Prop :=
  cube (length availableChars) n n s.1 ∧
  stream_marks s.2 = drop N ms ∧
  ∀ i j k, i < length availableChars → j < n → k < n →
    Mem.read3 s.1 i j k =
      (λ old, if decide (mark_pos n i j k < N)
              then Mem.stored old (ms !! mark_pos n i j k) else old)
        <$> Mem.read3 storage i j k.


(** An object with another content. *)
Definition with_content (s : list ascii) (this : PseudographicText.t)
  : PseudographicText.t :=
  mk s (textChar this) (backgroundChar this) (fontSize this) (textColor this).

(** The characters an event writes to [std::cout]. *)
Definition written (e : Console.event) : list cell :=
  match e with Put c => [c] | _ => [] end.

(** ** The points and vectors of [FirstLab/firstlab.cpp] *)

Module FirstLab.

Definition screenWidth : Z := 800.
Definition screenHeight : Z := 600.

(** [std::invalid_argument], with what [what()] returns. *)
Inductive exception := invalid_argument (what : string).

(** How a call ends: by returning or by throwing. *)
Inductive outcome (A : Type) := Returns (a : A) | Throws (e : exception).
Arguments Returns {A} a.
Arguments Throws {A} e.

(** The value of an arithmetic expression of type [int] (32 bits): there is
    none when the result does not fit, which is undefined behaviour. *)
Definition int (z : Z) : option Z :=
  if decide (-2147483648 ≤ z ≤ 2147483647)%Z then Some z else None.

(** The message of both constructors, in the bytes of the source file. *)
Definition outside_window : string :=
  "Координаты должны быть внутри окна (начало координат левый нижний угол)".

Module Point2d.

Record t := mk { x : Z; y : Z }.

(** [Point2d()]. *)
Definition default : t := mk 0 0.

(** [Point2d(x, y, screenWidth, screenHeight)]. *)
Definition make (x y screenWidth screenHeight : Z) : outcome t :=
  if decide (x < 0 ∨ y < 0 ∨ x >= screenWidth ∨ y >= screenHeight)%Z
  then Throws (invalid_argument outside_window)
  else Returns (mk x y).

Definition getX (this : t) : Z := x this.

Definition getY (this : t) : Z := y this.

Definition pointToString (this : t) : list ascii :=
  list_ascii_of_string "point(x=" ++ std.to_string (x this)
    ++ list_ascii_of_string ", y=" ++ std.to_string (y this)
    ++ list_ascii_of_string ")".

End Point2d.

Module Vector2d.

(** The data members; nothing assigns [head] and [end], which keep the
    value of [Point2d()]. *)
Record t := mk { head : Point2d.t; end_ : Point2d.t; x : Z; y : Z }.

(** [Vector2d()]. *)
Definition default : t := mk Point2d.default Point2d.default 0 0.

(** [Vector2d(headPoint, endPoint)]. *)
Definition of_points (headPoint endPoint : Point2d.t) : option t :=
  x ← int (Point2d.getX headPoint - Point2d.getX endPoint);
  y ← int (Point2d.getY headPoint - Point2d.getY endPoint);
  Some (mk Point2d.default Point2d.default x y).

(** [Vector2d(x, y)]. *)
Definition of_coords (x y : Z) : outcome t :=
  if decide (x <= 0 ∨ y <= 0 ∨ x >= screenWidth ∨ y >= screenHeight)%Z
  then Throws (invalid_argument outside_window)
  else Returns (mk Point2d.default Point2d.default x y).

Definition setCoordX (coordX : Z) (this : t) : t :=
  mk (head this) (end_ this) coordX (y this).

Definition setCoordY (coordY : Z) (this : t) : t :=
  mk (head this) (end_ this) (x this) coordY.

Definition getCoordX (this : t) : Z := x this.

Definition getCoordY (this : t) : Z := y this.

Definition dotProduct (this other : t) : option Z :=
  a ← int (x this * x other); b ← int (y this * y other); int (a + b).

Definition crossProduct (this other : t) : option Z :=
  a ← int (x this * y other); b ← int (x other * y this); int (a - b).

Definition mixedProduct (this firVec secVec thirVec : t) : Z := 0.

(** [operator+], [operator-] and [operator*]: the coordinates are computed,
    then [Vector2d(x, y)] is called on them. *)
Definition operator_plus (this other : t) : option (outcome t) :=
  a ← int (x this + x other); b ← int (y this + y other);
  Some (of_coords a b).

Definition operator_minus (this other : t) : option (outcome t) :=
  a ← int (x this - x other); b ← int (y this - y other);
  Some (of_coords a b).

Definition operator_times (this : t) (k : Z) : option (outcome t) :=
  a ← int (x this * k); b ← int (y this * k); Some (of_coords a b).

Definition vectorToString (this : t) : list ascii :=
  list_ascii_of_string "vector(x= " ++ std.to_string (x this)
    ++ list_ascii_of_string ", y= " ++ std.to_string (y this)
    ++ list_ascii_of_string ")".

(** A vector with the coordinates [Vector2d(x, y)] accepts. *)
Definition in_window (v : t) : Prop :=
  (0 < x v < screenWidth ∧ 0 < y v < screenHeight)%Z.

End Vector2d.

End FirstLab.

(** * Loops and arrays *)

Section loops.
Context {St : Type}.
Implicit Types (body : nat → St → option St) (I : nat → St → Prop).

(** The invariant rule of the counted loop. *)
Lemma for_loop_rule I lo n body s :
  I lo s →
  (∀ i s, lo ≤ i < lo + n → I i s → ∃ s', body i s = Some s' ∧ I (S i) s') →
  ∃ s', Mem.for_loop lo n body s = Some s' ∧ I (lo + n) s'.
Proof.
  revert lo s. induction n as [|n IH]; intros lo s H0 Hstep; simpl.
  - exists s. by rewrite Nat.add_0_r.
  - destruct (Hstep lo s) as (s1 & -> & H1); [lia | done |]. simpl.
    replace (lo + S n) with (S lo + n) by lia.
    apply IH; [done |]. intros i s2 Hi. apply Hstep. lia.
Qed.

Lemma for_upto_rule I n body s :
  I 0 s →
  (∀ i s, i < n → I i s → ∃ s', body i s = Some s' ∧ I (S i) s') →
  ∃ s', Mem.for_upto n body s = Some s' ∧ I n s'.
Proof.
  intros H0 Hstep. apply (for_loop_rule I 0 n); [done |].
  intros i s1 Hi. apply Hstep. lia.
Qed.

End loops.

Section arrays.
Implicit Types (a : list (list cell)) (t : list (list (list cell))).

Lemma write2_Some h w a j c v :
  rect h w a → j < h → c < w →
  ∃ a', Mem.write2 a j c v = Some a' ∧ rect h w a'.
Proof.
  intros [Hl Hr] Hj Hc. unfold Mem.write2.
  destruct (lookup_lt_is_Some_2 a j) as [r Hrj]; [lia |]. rewrite Hrj. simpl.
  pose proof (Forall_lookup_1 _ _ _ _ Hr Hrj) as Hw. simpl in Hw.
  rewrite decide_True by lia. eexists; split; [done |]. split.
  - by rewrite length_insert.
  - apply Forall_insert; [done |]. by rewrite length_insert.
Qed.

Lemma read2_write2 a a' j c v j' c' :
  Mem.write2 a j c v = Some a' →
  Mem.read2 a' j' c' =
    if decide (j' = j ∧ c' = c) then Some v else Mem.read2 a j' c'.
Proof.
  unfold Mem.write2, Mem.read2. intros H.
  destruct (a !! j) as [r|] eqn:Hr; simplify_eq/=.
  case_decide as Hc; simplify_eq/=.
  assert (j < length a) by (by eapply lookup_lt_Some).
  case_decide as He.
  - destruct He as [-> ->]. rewrite list_lookup_insert_eq by done. simpl.
    by rewrite list_lookup_insert_eq.
  - destruct (decide (j' = j)) as [->|Hj].
    + rewrite list_lookup_insert_eq by done. rewrite Hr. simpl.
      rewrite list_lookup_insert_ne; [done | intros ->; by apply He].
    + by rewrite list_lookup_insert_ne.
Qed.

Lemma read2_Some h w a j c :
  rect h w a → j < h → c < w → is_Some (Mem.read2 a j c).
Proof.
  intros [Hl Hr] Hj Hc. unfold Mem.read2.
  destruct (lookup_lt_is_Some_2 a j) as [r Hrj]; [lia |]. rewrite Hrj. simpl.
  apply lookup_lt_is_Some_2.
  pose proof (Forall_lookup_1 _ _ _ _ Hr Hrj) as Hw. simpl in Hw. lia.
Qed.

Lemma write3_Some n h w t i j k v :
  cube n h w t → i < n → j < h → k < w →
  ∃ t', Mem.write3 t i j k v = Some t' ∧ cube n h w t'.
Proof.
  intros [Hl Hg] Hi Hj Hk. unfold Mem.write3.
  destruct (lookup_lt_is_Some_2 t i) as [g Hgi]; [lia |]. rewrite Hgi. simpl.
  pose proof (Forall_lookup_1 _ _ _ _ Hg Hgi) as Hrg.
  destruct (write2_Some h w g j k v) as (g' & -> & Hg'); [done.. |]. simpl.
  eexists; split; [done |]. split.
  - by rewrite length_insert.
  - by apply Forall_insert.
Qed.

Lemma read3_write3 t t' i j k v i' j' k' :
  Mem.write3 t i j k v = Some t' →
  Mem.read3 t' i' j' k' =
    if decide (i' = i ∧ j' = j ∧ k' = k) then Some v
    else Mem.read3 t i' j' k'.
Proof.
  unfold Mem.write3, Mem.read3. intros H.
  destruct (t !! i) as [g|] eqn:Hg; simplify_eq/=.
  destruct (Mem.write2 g j k v) as [g'|] eqn:Hw; simplify_eq/=.
  assert (i < length t) by (by eapply lookup_lt_Some).
  destruct (decide (i' = i)) as [->|Hi].
  - rewrite list_lookup_insert_eq by done. simpl.
    rewrite (read2_write2 g g' j k v) by done. rewrite Hg. simpl.
    destruct (decide (j' = j ∧ k' = k)) as [[-> ->]|Hjk].
    + by rewrite decide_True.
    + rewrite decide_False; [done | tauto].
  - rewrite list_lookup_insert_ne by done.
    rewrite decide_False; [done | tauto].
Qed.

Lemma read3_Some n h w t i j k :
  cube n h w t → i < n → j < h → k < w → is_Some (Mem.read3 t i j k).
Proof.
  intros [Hl Hg] Hi Hj Hk. unfold Mem.read3.
  destruct (lookup_lt_is_Some_2 t i) as [g Hgi]; [lia |]. rewrite Hgi. simpl.
  apply (read2_Some h w); [| done..]. apply (Forall_lookup_1 _ _ _ _ Hg Hgi).
Qed.

End arrays.

(** * The alphabet and [setString] *)

Section alphabet.
Implicit Types (s : list ascii) (c : ascii).

Lemma find_None s c : std.find s c = None ↔ c ∉ s.
Proof.
  induction s as [|d s IH]; simpl.
  - split; [intros _; apply not_elem_of_nil | done].
  - rewrite not_elem_of_cons. destruct (Ascii.eqb_spec d c) as [->|Hd].
    + split; [done | tauto].
    + destruct (std.find s c); simpl in *; split; try done.
      * intros [_ H]. by apply IH in H.
      * intros _. split; [congruence | by apply IH].
Qed.

Lemma find_Some s c p : std.find s c = Some p → s !! p = Some c.
Proof.
  revert p. induction s as [|d s IH]; intros p; simpl; [done |].
  destruct (Ascii.eqb_spec d c) as [->|Hd]; [by intros [= <-] |].
  destruct (std.find s c) as [q|]; simpl; [| done].
  intros [= <-]. by apply IH.
Qed.

(** In a string without repetition [find] is the inverse of indexing. *)
Lemma find_lookup s c p : NoDup s → s !! p = Some c → std.find s c = Some p.
Proof.
  intros Hnd Hp. destruct (std.find s c) as [q|] eqn:Hq.
  - f_equal. eapply NoDup_lookup; eauto using find_Some.
  - apply find_None in Hq. destruct Hq. by eapply list_elem_of_lookup_2.
Qed.

Lemma availableChars_alphabet : availableChars = alphabet.
Proof. reflexivity. Qed.

Lemma availableChars_NoDup : NoDup availableChars.
Proof. apply (bool_decide_unpack _). by vm_compute. Qed.

(** [setString]'s scan finds nothing exactly on the valid strings. *)
Lemma first_unavailable_None s : first_unavailable s = None ↔ valid s.
Proof.
  unfold valid. induction s as [|c s IH]; cbn [first_unavailable].
  - split; [by constructor | done].
  - rewrite Forall_cons, <- IH, <- availableChars_alphabet.
    destruct (std.find availableChars c) eqn:Hc.
    + split; [| tauto]. intros H. split; [| done].
      destruct (decide (c ∈ availableChars)) as [|Hn]; [done |].
      apply find_None in Hn. congruence.
    + apply find_None in Hc. split; [done | tauto].
Qed.

(** What it finds otherwise is the first character outside the alphabet. *)
Lemma first_unavailable_Some s c :
  first_unavailable s = Some c →
  ∃ pre post, s = pre ++ (c :: post) ∧ valid pre ∧ c ∉ alphabet.
Proof.
  induction s as [|d s IH]; cbn [first_unavailable]; [done |].
  destruct (std.find availableChars d) eqn:Hd.
  - intros H. destruct (IH H) as (pre & post & -> & Hpre & Hc).
    exists (d :: pre), post. split_and!; [done | | done].
    apply Forall_cons. split; [| done]. rewrite <- availableChars_alphabet.
    destruct (decide (d ∈ availableChars)) as [|Hn]; [done |].
    apply find_None in Hn. congruence.
  - intros [= <-]. exists [], s. split_and!; [done | by constructor |].
    rewrite <- availableChars_alphabet. by apply find_None.
Qed.

End alphabet.

(** C1.  A string with a character outside the alphabet is rejected by
    [setString]: it splits as a valid prefix, the first offending
    character [c] and a rest; the call reports [c] on the error stream and
    returns the object it was given, content included, whatever that
    object is. *)
Theorem setString_rejects_invalid (s : list ascii) (this : PseudographicText.t)
  (w : world) :
  ¬ valid s →
  ∃ pre c post,
    s = pre ++ (c :: post) ∧ valid pre ∧ (c ∉ alphabet) ∧
    setString s this w = (this, on_cerr (unavailable_message c) w) ∧
    str (setString s this w).1 = str this.
Proof.
  intros Hs. unfold setString.
  destruct (first_unavailable s) as [c|] eqn:Hc.
  - destruct (first_unavailable_Some s c Hc) as (pre & post & ? & ? & ?).
    by exists pre, c, post.
  - by apply first_unavailable_None in Hc.
Qed.

Lemma setString_rejects_invalid_witness :
  ∃ pre c post,
    list_ascii_of_string "HI@THERE#" = pre ++ (c :: post) ∧ valid pre ∧
    (c ∉ alphabet) ∧
    setString (list_ascii_of_string "HI@THERE#") default sample_world
    = (default, on_cerr (unavailable_message c) sample_world) ∧
    str (setString (list_ascii_of_string "HI@THERE#") default sample_world).1
    = str default.
Proof.
  apply (setString_rejects_invalid (list_ascii_of_string "HI@THERE#")).
  unfold valid. intros H. apply (Forall_lookup_1 _ _ 2 "@"%char) in H; [| done].
  revert H. simpl. apply (bool_decide_eq_false_1 _). by vm_compute.
Defined.

(** [setString] on a valid string stores it and reports nothing. *)
Lemma setString_accepts_valid s this w :
  valid s →
  setString s this w =
    (mk s (textChar this) (backgroundChar this) (fontSize this)
       (textColor this), w).
Proof.
  intros Hs. unfold setString.
  by rewrite (proj2 (first_unavailable_None s) Hs).
Qed.

(** * [createCharTable] *)

Section stream.

Lemma skipws_filter cs :
  filter (λ c, ¬ std.isspace c) (std.skipws cs)
  = filter (λ c, ¬ std.isspace c) cs.
Proof.
  induction cs as [|c cs IH]; simpl; [done |].
  destruct (std.isspace c) eqn:Hc; [| done].
  rewrite filter_cons_False; [done |]. rewrite Hc. by intros [].
Qed.

Lemma skipws_head c cs cs' : std.skipws cs = c :: cs' → ¬ std.isspace c.
Proof.
  induction cs as [|d cs IH]; simpl; [done |].
  destruct (std.isspace d) eqn:Hd; [done |]. intros [= <- <-]. rewrite Hd. by intros [].
Qed.

(** An extraction yields the next mark, if there is one, and leaves the
    marks after it. *)
Lemma extract_marks i :
  (std.extract i).1 = stream_marks i !! 0 ∧
  stream_marks (std.extract i).2 = drop 1 (stream_marks i).
Proof.
  unfold std.extract, stream_marks. destruct (std.fail i) eqn:Hf; simpl.
  - by rewrite Hf.
  - rewrite <- (skipws_filter (std.pending i)).
    destruct (std.skipws (std.pending i)) as [|c cs] eqn:Hs; simpl; [done |].
    rewrite filter_cons_True by (by eapply skipws_head). done.
Qed.

Lemma open_marks content : stream_marks (std.open content) = marks content.
Proof. by destruct content. Qed.

End stream.

Section createCharTable.
Variables (ms : list ascii) (n : nat).
Local Abbreviation chars := (length availableChars).

Lemma mark_pos_inj i j k i' j' k' :
  i < chars → i' < chars → k < n → k' < n →
  mark_pos n i j k = mark_pos n i' j' k' → i = i' ∧ j = j' ∧ k = k'.
Proof.
  unfold mark_pos. intros Hi Hi' Hk Hk' H.
  destruct (Nat.div_mod_unique n (j * chars + i) (j' * chars + i') k k')
    as [Ha ->]; [done | done | lia |].
  destruct (Nat.div_mod_unique chars j j' i i'); [done | done | lia |].
  by subst.
Qed.

(** One turn of the innermost loop, at the place it reads for. *)
Lemma createCharTable_step i j k s :
  i < chars → j < n → k < n →
  loaded ms n (mark_pos n i j k) s →
  ∃ s', load_mark i j k s = Some s' ∧ loaded ms n (S (mark_pos n i j k)) s'.
Proof.
  intros Hi Hj Hk. destruct s as [t strm]. intros (Hc & Hm & Hr).
  unfold load_mark. simpl in *.
  rewrite (Hr i j k) by done. rewrite decide_False by lia. simpl.
  destruct (extract_marks strm) as [Hg Hs].
  destruct (std.extract strm) as [got strm']. simpl in *.
  destruct (write3_Some _ _ _ t i j k (Mem.stored Indet got) Hc)
    as (t' & Hw & Hc'); [done.. |].
  rewrite Hw. simpl. eexists; split; [done |]. split_and!; simpl.
  - done.
  - rewrite Hs, Hm, drop_drop. f_equal. lia.
  - intros i' j' k' Hi' Hj' Hk'. rewrite (read3_write3 _ _ _ _ _ _ _ _ _ Hw).
    case_decide as He.
    + destruct He as (-> & -> & ->). rewrite decide_True by lia.
      rewrite Hg, Hm, lookup_drop, Nat.add_0_r. unfold mark_at.
      by destruct (ms !! _).
    + rewrite Hr by done. f_equal.
      assert (mark_pos n i' j' k' ≠ mark_pos n i j k).
      { intros Hp. apply mark_pos_inj in Hp; [tauto | done..]. }
      repeat case_decide; done || lia.
Qed.

(** The three loops, from the freshly allocated table and the stream just
    opened on a resource with marks [ms]. *)
Lemma createCharTable_loops strm :
  stream_marks strm = ms →
  ∃ s',
    Mem.for_upto n (λ j,
      Mem.for_upto chars (λ i, Mem.for_upto n (λ k, load_mark i j k)))
      (replicate chars (replicate n (Mem.new_array n)), strm) = Some s' ∧
    loaded ms n (mark_pos n 0 n 0) s'.
Proof.
  intros Hs.
  apply (for_upto_rule (λ j, loaded ms n (mark_pos n 0 j 0))).
  { split_and!; cbn [fst snd].
    - split; [apply length_replicate |]. apply Forall_replicate.
      split; [apply length_replicate |]. apply Forall_replicate.
      apply length_replicate.
    - done.
    - intros i j k Hi Hj Hk. unfold Mem.read3, Mem.read2, Mem.new_array.
      rewrite lookup_replicate_2 by done. cbn [mbind option_bind].
      rewrite lookup_replicate_2 by done. cbn [mbind option_bind].
      rewrite lookup_replicate_2 by done.
      rewrite decide_False; [done | unfold mark_pos; lia]. }
  intros j s Hj Hl.
  replace (mark_pos n 0 (S j) 0) with (mark_pos n chars j 0)
    by (unfold mark_pos; lia).
  apply (for_upto_rule (λ i, loaded ms n (mark_pos n i j 0))); [done |].
  clear s Hl. intros i s Hi Hl.
  replace (mark_pos n (S i) j 0) with (mark_pos n i j n)
    by (unfold mark_pos; lia).
  apply (for_upto_rule (λ k, loaded ms n (mark_pos n i j k))); [done |].
  clear s Hl. intros k s Hk Hl.
  replace (mark_pos n i j (S k)) with (S (mark_pos n i j k))
    by (unfold mark_pos; lia).
  by apply createCharTable_step.
Qed.

End createCharTable.

Section extensionality.

(** A rectangular array is determined by its cells. *)
Lemma rect_ext h w a (f : nat → nat → cell) :
  rect h w a →
  (∀ j c, j < h → c < w → Mem.read2 a j c = Some (f j c)) →
  a = (λ j, f j <$> seq 0 w) <$> seq 0 h.
Proof.
  intros [Hl Hr] Hf. apply list_eq. intros j. rewrite list_lookup_fmap.
  destruct (decide (j < h)) as [Hj|Hj].
  - rewrite lookup_seq_lt by done. simpl.
    destruct (lookup_lt_is_Some_2 a j) as [r Hrj]; [lia |]. rewrite Hrj.
    f_equal. pose proof (Forall_lookup_1 _ _ _ _ Hr Hrj) as Hw. simpl in Hw.
    apply list_eq. intros c. rewrite list_lookup_fmap.
    destruct (decide (c < w)) as [Hc|Hc].
    + rewrite lookup_seq_lt by done. simpl. specialize (Hf j c Hj Hc).
      unfold Mem.read2 in Hf. by rewrite Hrj in Hf.
    + rewrite lookup_seq_ge by lia. apply lookup_ge_None. lia.
  - rewrite lookup_seq_ge by lia. apply lookup_ge_None. lia.
Qed.

Lemma cube_ext n h w t (f : nat → nat → nat → cell) :
  cube n h w t →
  (∀ i j k, i < n → j < h → k < w → Mem.read3 t i j k = Some (f i j k)) →
  t = (λ i, (λ j, f i j <$> seq 0 w) <$> seq 0 h) <$> seq 0 n.
Proof.
  intros [Hl Hg] Hf. apply list_eq. intros i. rewrite list_lookup_fmap.
  destruct (decide (i < n)) as [Hi|Hi].
  - rewrite lookup_seq_lt by done. simpl.
    destruct (lookup_lt_is_Some_2 t i) as [g Hgi]; [lia |]. rewrite Hgi.
    f_equal. apply rect_ext; [apply (Forall_lookup_1 _ _ _ _ Hg Hgi) |].
    intros j k Hj Hk. specialize (Hf i j k Hi Hj Hk).
    unfold Mem.read3 in Hf. by rewrite Hgi in Hf.
  - rewrite lookup_seq_ge by lia. apply lookup_ge_None. lia.
Qed.

End extensionality.

(** [createCharTable] always returns a table of its shape, each cell
    holding the mark at its place in the resource, if there is one. *)
Lemma createCharTable_loaded this fs :
  ∃ t,
    createCharTable this fs = Some t ∧
    cube (length availableChars) (side this) (side this) t ∧
    ∀ i j k, i < length availableChars → j < side this → k < side this →
      Mem.read3 t i j k
      = Some (mark_at (marks (fs (table_file_name this)))
                (mark_pos (side this) i j k)).
Proof.
  unfold createCharTable. fold (side this).
  destruct (createCharTable_loops (marks (fs (table_file_name this)))
              (side this) (std.open (fs (table_file_name this))))
    as ([t strm] & -> & Hc & _ & Hr); [apply open_marks |].
  exists t. split_and!; [done.. |].
  intros i j k Hi Hj Hk. cbn [fst snd] in Hr. rewrite Hr by done. f_equal.
  apply decide_True. unfold mark_pos. nia.
Qed.



(** C6.  The table [createCharTable] returns is the one rebuilt from the
    interleaved layout: the marks of the resource are taken in the order
    row index, character, column, so that mark [k] of row [j] of the glyph
    of character [i] is mark number [(j * 41 + i) * fontSize + k] of the
    resource; and where the resource holds all [fontSize] marks of such a
    row, the row is that run of consecutive marks. *)
Theorem createCharTable_reconstructs (this : PseudographicText.t) (fs : files) :
  createCharTable this fs
  = Some (reconstruct (side this) (marks (fs (table_file_name this)))) ∧
  ∀ t g i j,
    createCharTable this fs = Some t → t !! i = Some g → j < side this →
    (j * length availableChars + i) * side this + side this
      ≤ length (marks (fs (table_file_name this))) →
    g !! j
    = Some (Chr <$> take (side this)
                      (drop ((j * length availableChars + i) * side this)
                         (marks (fs (table_file_name this))))).
Proof.
  destruct (createCharTable_loaded this fs) as (t & Ht & Hc & Hr).
  split.
  - rewrite Ht. f_equal. by apply cube_ext.
  - intros t' g i j. rewrite Ht. intros [= <-] Hg Hj Hlen.
    destruct Hc as [Hl Hgs]. pose proof (lookup_lt_Some _ _ _ Hg) as Hi.
    destruct (Forall_lookup_1 _ _ _ _ Hgs Hg) as [Hh Hrs].
    destruct (lookup_lt_is_Some_2 g j) as [r Hrj]; [lia |]. rewrite Hrj.
    f_equal. pose proof (Forall_lookup_1 _ _ _ _ Hrs Hrj) as Hw. simpl in Hw.
    apply list_eq. intros k. rewrite list_lookup_fmap.
    destruct (decide (k < side this)) as [Hk|Hk].
    + rewrite lookup_take_lt, lookup_drop by done.
      specialize (Hr i j k). unfold Mem.read3, Mem.read2 in Hr.
      rewrite Hg in Hr. cbn [mbind option_bind] in Hr. rewrite Hrj in Hr.
      cbn [mbind option_bind] in Hr. rewrite Hr by lia.
      unfold mark_at, mark_pos.
      destruct (lookup_lt_is_Some_2 (marks (fs (table_file_name this)))
                  ((j * length availableChars + i) * side this + k))
        as [c ->]; [lia | done].
    + rewrite lookup_take_ge by lia. apply lookup_ge_None. simpl. lia.
Qed.

(** * [createText] *)

Section createText.
Variables (this : PseudographicText.t) (charTable : list (list (list cell))).
Local Abbreviation n := (side this).
Local Abbreviation len := (length (str this)).

Lemma column_inj i k i' k' :
  k < n → k' < n → i * n + k = i' * n + k' → i = i' ∧ k = k'.
Proof. intros Hk Hk' H. apply (Nat.div_mod_unique n); [done | done | lia]. Qed.

Lemma draw_time_inj i j k i' j' k' :
  j < n → j' < n → k < n → k' < n →
  draw_time n i j k = draw_time n i' j' k' → i = i' ∧ j = j' ∧ k = k'.
Proof.
  unfold draw_time. intros Hj Hj' Hk Hk' H.
  destruct (column_inj (i * n + j) k (i' * n + j') k') as [Ha ->];
    [done.. |].
  destruct (column_inj i j i' j'); [done.. |]. by subst.
Qed.

(** What one turn does to the buffer: one cell gets the substituted mark. *)
Lemma draw_mark_spec h w text i j k m :
  rect h w text → j < h → i * n + k < w →
  glyph_mark this charTable i j k = Some m →
  ∃ text',
    draw_mark this charTable i j k text = Some text' ∧ rect h w text' ∧
    ∀ j' c', Mem.read2 text' j' c' =
               if decide (j' = j ∧ c' = i * n + k)
               then Some (substitute this m) else Mem.read2 text j' c'.
Proof.
  intros Hr Hj Hc. unfold glyph_mark, draw_mark. fold n.
  destruct (str this !! i) as [c|]; [| done]. cbn [mbind option_bind].
  destruct (std.find availableChars c) as [p|]; [| done].
  cbn [mbind option_bind]. intros ->. cbn [mbind option_bind].
  destruct (write2_Some h w text j (i * n + k) m Hr Hj Hc)
    as (text1 & Hw1 & Hr1).
  rewrite Hw1. cbn [mbind option_bind]. unfold substitute.
  destruct (decide (m = Chr "1")) as [Hm1|Hm1];
    [| destruct (decide (m = Chr "0")) as [Hm0|Hm0]].
  - destruct (write2_Some h w text1 j (i * n + k) (Chr (textChar this)) Hr1
                Hj Hc) as (text2 & Hw2 & Hr2).
    exists text2. split_and!; [done.. |]. intros j' c'.
    rewrite (read2_write2 _ _ _ _ _ _ _ Hw2).
    case_decide; [done |]. rewrite (read2_write2 _ _ _ _ _ _ _ Hw1).
    by rewrite decide_False.
  - destruct (write2_Some h w text1 j (i * n + k)
                (Chr (backgroundChar this)) Hr1 Hj Hc)
      as (text2 & Hw2 & Hr2).
    exists text2. split_and!; [done.. |]. intros j' c'.
    rewrite (read2_write2 _ _ _ _ _ _ _ Hw2).
    case_decide; [done |]. rewrite (read2_write2 _ _ _ _ _ _ _ Hw1).
    by rewrite decide_False.
  - exists text1. split_and!; [done.. |]. intros j' c'.
    apply (read2_write2 _ _ _ _ _ _ _ Hw1).
Qed.

Hypothesis marks_defined :
  ∀ i j k, i < len → j < n → k < n →
    is_Some (glyph_mark this charTable i j k).

Lemma createText_step i j k text :
  i < len → j < n → k < n →
  drawn this charTable (draw_time n i j k) text →
  ∃ text',
    draw_mark this charTable i j k text = Some text' ∧
    drawn this charTable (S (draw_time n i j k)) text'.
Proof.
  intros Hi Hj Hk [Hr Hd].
  destruct (marks_defined i j k Hi Hj Hk) as [m Hm].
  destruct (draw_mark_spec n (len * n) text i j k m Hr Hj) as
    (text' & Ht' & Hr' & Hd'); [nia | done |].
  exists text'. split; [done |]. split; [done |].
  intros i' j' k' Hi' Hj' Hk'.
  rewrite Hd'. case_decide as He.
  - destruct He as [-> He]. apply column_inj in He as [-> ->]; [| done..].
    rewrite decide_True by lia. by rewrite Hm.
  - rewrite Hd by done.
    assert (draw_time n i' j' k' ≠ draw_time n i j k).
    { intros Ht. apply draw_time_inj in Ht; [| done..].
      destruct Ht as (-> & -> & ->). by destruct He. }
    repeat case_decide; done || lia.
Qed.

Lemma createText_drawn :
  ∃ text,
    createText this charTable = Some text ∧
    drawn this charTable (draw_time n len 0 0) text.
Proof.
  unfold createText. fold n.
  apply (for_upto_rule (λ i, drawn this charTable (draw_time n i 0 0))).
  { split.
    - split; [apply length_replicate |]. apply Forall_replicate.
      apply length_replicate.
    - intros i j k Hi Hj Hk. unfold Mem.read2, Mem.new_array.
      rewrite lookup_replicate_2 by done. cbn [mbind option_bind].
      rewrite lookup_replicate_2 by nia.
      rewrite decide_False; [done | unfold draw_time; lia]. }
  intros i text Hi Hd.
  replace (draw_time n (S i) 0 0) with (draw_time n i n 0)
    by (unfold draw_time; lia).
  apply (for_upto_rule (λ j, drawn this charTable (draw_time n i j 0)));
    [done |].
  clear text Hd. intros j text Hj Hd.
  replace (draw_time n i (S j) 0) with (draw_time n i j n)
    by (unfold draw_time; lia).
  apply (for_upto_rule (λ k, drawn this charTable (draw_time n i j k)));
    [done |].
  clear text Hd. intros k text Hk Hd.
  replace (draw_time n i j (S k)) with (S (draw_time n i j k))
    by (unfold draw_time; lia).
  by apply createText_step.
Qed.

(** [createText] returns a buffer of [fontSize] rows of
    [str.size() * fontSize] cells, each the substituted mark it was drawn
    from. *)
Lemma createText_cells :
  ∃ text,
    createText this charTable = Some text ∧
    rect n (len * n) text ∧
    ∀ i j k, i < len → j < n → k < n →
      Mem.read2 text j (i * n + k)
      = substitute this <$> glyph_mark this charTable i j k.
Proof.
  destruct createText_drawn as (text & Ht & Hr & Hd).
  exists text. split_and!; [done.. |]. intros i j k Hi Hj Hk.
  rewrite Hd by done. apply decide_True. unfold draw_time. nia.
Qed.

End createText.

Section composition.
Variables (this : PseudographicText.t) (charTable : list (list (list cell))).
Local Abbreviation n := (side this).
Local Abbreviation len := (length (str this)).
Local Abbreviation chars := (length availableChars).

Lemma read3_lt m h w t i j k x :
  cube m h w t → Mem.read3 t i j k = Some x → i < m ∧ j < h ∧ k < w.
Proof.
  intros [Hl Hg]. unfold Mem.read3, Mem.read2.
  destruct (t !! i) as [g|] eqn:Hgi; [| done]. cbn [mbind option_bind].
  destruct (g !! j) as [r|] eqn:Hrj; [| done]. cbn [mbind option_bind].
  intros Hk. destruct (Forall_lookup_1 _ _ _ _ Hg Hgi) as [Hh Hr].
  pose proof (Forall_lookup_1 _ _ _ _ Hr Hrj) as Hw. simpl in Hw.
  apply lookup_lt_Some in Hgi, Hrj, Hk. lia.
Qed.

Lemma binary_read3 t i j k x :
  binary t → Mem.read3 t i j k = Some x → x = Chr "1" ∨ x = Chr "0".
Proof.
  unfold Mem.read3, Mem.read2. intros Hb.
  destruct (t !! i) as [g|] eqn:Hgi; [| done]. cbn [mbind option_bind].
  destruct (g !! j) as [r|] eqn:Hrj; [| done]. cbn [mbind option_bind].
  intros Hk. pose proof (Forall_lookup_1 _ _ _ _ Hb Hgi) as Hg.
  pose proof (Forall_lookup_1 _ _ _ _ Hg Hrj) as Hr.
  apply (Forall_lookup_1 _ _ _ _ Hr Hk).
Qed.

(** The mark read for a character of valid content is the mark of the
    glyph at that character's place in the alphabet. *)
Lemma glyph_mark_alphabet i c p j k :
  str this !! i = Some c → alphabet !! p = Some c →
  glyph_mark this charTable i j k = Mem.read3 charTable p j k.
Proof.
  intros Hi Hp. unfold glyph_mark. rewrite Hi. cbn [mbind option_bind].
  rewrite (find_lookup availableChars c p); [done | |].
  - apply availableChars_NoDup.
  - by rewrite availableChars_alphabet.
Qed.

Hypotheses (content_valid : valid (str this))
           (table_shape : cube chars n n charTable).

Lemma glyph_mark_defined i j k :
  i < len → j < n → k < n → is_Some (glyph_mark this charTable i j k).
Proof.
  intros Hi Hj Hk.
  destruct (lookup_lt_is_Some_2 (str this) i Hi) as [c Hc].
  pose proof (Forall_lookup_1 _ _ _ _ content_valid Hc) as Ha.
  apply list_elem_of_lookup_1 in Ha as [p Hp].
  rewrite (glyph_mark_alphabet i c p) by done.
  apply (read3_Some chars n n); [done | | done..].
  apply lookup_lt_Some in Hp. by rewrite availableChars_alphabet.
Qed.

(** Composition of valid content over a table of the right shape, whatever
    its marks. *)
Lemma createText_valid :
  ∃ text,
    createText this charTable = Some text ∧
    rect n (len * n) text ∧
    ∀ i c p j k m,
      str this !! i = Some c → alphabet !! p = Some c →
      Mem.read3 charTable p j k = Some m →
      Mem.read2 text j (i * n + k) = Some (substitute this m).
Proof.
  destruct (createText_cells this charTable glyph_mark_defined)
    as (text & Ht & Hr & Hc).
  exists text. split_and!; [done.. |]. intros i c p j k m Hi Hp Hm.
  destruct (read3_lt _ _ _ _ _ _ _ _ table_shape Hm) as (_ & Hj & Hk).
  rewrite Hc; [| by eapply lookup_lt_Some | done..].
  by rewrite (glyph_mark_alphabet i c p), Hm.
Qed.

End composition.

(** C5.  For valid content and a table of one [fontSize] by [fontSize]
    glyph per character whose marks are all ['1'] or ['0'], [createText]
    returns a buffer of [fontSize] rows, each of [str.size() * fontSize]
    cells (none for the empty content); and cell [i * fontSize + k] of row
    [j] is [textChar] where mark [k] of row [j] of the glyph of [str[i]] is
    ['1'] and [backgroundChar] where it is ['0'].  The glyphs are laid out
    side by side, with nothing between them. *)
Theorem createText_composes (this : PseudographicText.t)
  (charTable : list (list (list cell))) :
  valid (str this) →
  cube (length availableChars) (side this) (side this) charTable →
  binary charTable →
  ∃ text,
    createText this charTable = Some text ∧
    length text = side this ∧
    Forall (λ r, length r = length (str this) * side this) text ∧
    ∀ i c p j k m,
      str this !! i = Some c → alphabet !! p = Some c →
      Mem.read3 charTable p j k = Some m →
      (m = Chr "1" ∧
       Mem.read2 text j (i * side this + k) = Some (Chr (textChar this))) ∨
      (m = Chr "0" ∧
       Mem.read2 text j (i * side this + k) = Some (Chr (backgroundChar this))).
Proof.
  intros Hv Hc Hb.
  destruct (createText_valid this charTable Hv Hc) as (text & Ht & [Hl Hr] & Hm).
  exists text. split_and!; [done.. |]. intros i c p j k m Hi Hp Hr3.
  rewrite (Hm i c p j k m) by done. unfold substitute.
  destruct (binary_read3 _ _ _ _ _ Hb Hr3) as [-> | ->]; [left | right]; done.
Qed.

Lemma createText_composes_witness :
  ∃ text,
    createText sample_text sample_table = Some text ∧
    length text = side sample_text ∧
    Forall (λ r, length r = length (str sample_text) * side sample_text) text ∧
    ∀ i c p j k m,
      str sample_text !! i = Some c → alphabet !! p = Some c →
      Mem.read3 sample_table p j k = Some m →
      (m = Chr "1" ∧
       Mem.read2 text j (i * side sample_text + k)
       = Some (Chr (textChar sample_text))) ∨
      (m = Chr "0" ∧
       Mem.read2 text j (i * side sample_text + k)
       = Some (Chr (backgroundChar sample_text))).
Proof.
  apply (createText_composes sample_text sample_table).
  - unfold valid. apply (bool_decide_unpack _). by vm_compute.
  - unfold cube, rect. apply (bool_decide_unpack _). by vm_compute.
  - unfold binary. apply (bool_decide_unpack _). by vm_compute.
Defined.

(** C10.  For valid content and a table of the right shape with arbitrary
    marks, [createText] returns a buffer; a mark other than ['1'] and ['0']
    is in its cell of the buffer as it is in the table; and when all marks
    of the table are ['1'] or ['0'], every cell of the buffer is [textChar]
    or [backgroundChar]. *)
Theorem createText_copies_other_marks (this : PseudographicText.t)
  (charTable : list (list (list cell))) :
  valid (str this) →
  cube (length availableChars) (side this) (side this) charTable →
  ∃ text,
    createText this charTable = Some text ∧
    (∀ i c p j k m,
       str this !! i = Some c → alphabet !! p = Some c →
       Mem.read3 charTable p j k = Some m →
       m ≠ Chr "1" → m ≠ Chr "0" →
       Mem.read2 text j (i * side this + k) = Some m) ∧
    (binary charTable →
     ∀ j col x, Mem.read2 text j col = Some x →
       x = Chr (textChar this) ∨ x = Chr (backgroundChar this)).
Proof.
  intros Hv Hc.
  destruct (createText_valid this charTable Hv Hc) as (text & Ht & Hr & Hm).
  exists text. split_and!; [done | |].
  - intros i c p j k m Hi Hp Hr3 H1 H0.
    rewrite (Hm i c p j k m) by done. unfold substitute.
    by rewrite !decide_False.
  - intros Hb j col x Hx.
    destruct (read3_lt 1 (side this) (length (str this) * side this)
                [text] 0 j col x) as (_ & Hj & Hcol).
    { split; [done |]. by apply Forall_singleton. }
    { done. }
    assert (0 < side this) as Hn by nia.
    pose proof (Nat.div_mod_eq col (side this)) as Hdm.
    pose proof (Nat.mod_upper_bound col (side this)) as Hk.
    assert (col `div` side this < length (str this)) as Hi.
    { apply Nat.Div0.div_lt_upper_bound. lia. }
    destruct (lookup_lt_is_Some_2 (str this) _ Hi) as [c Hci].
    pose proof (Forall_lookup_1 _ _ _ _ Hv Hci) as Ha.
    apply list_elem_of_lookup_1 in Ha as [p Hp].
    destruct (read3_Some _ _ _ charTable p j (col `mod` side this) Hc)
      as [m Hr3]; [| done | lia |].
    { apply lookup_lt_Some in Hp. by rewrite availableChars_alphabet. }
    pose proof (Hm _ c p j _ m Hci Hp Hr3) as Hcell.
    replace (col `div` side this * side this + col `mod` side this) with col
      in Hcell by lia.
    rewrite Hx in Hcell. injection Hcell as ->. unfold substitute.
    destruct (binary_read3 _ _ _ _ _ Hb Hr3) as [-> | ->]; [left | right]; done.
Qed.

Lemma createText_copies_other_marks_witness :
  ∃ text,
    createText sample_text sample_table_x = Some text ∧
    (∀ i c p j k m,
       str sample_text !! i = Some c → alphabet !! p = Some c →
       Mem.read3 sample_table_x p j k = Some m →
       m ≠ Chr "1" → m ≠ Chr "0" →
       Mem.read2 text j (i * side sample_text + k) = Some m) ∧
    (binary sample_table_x →
     ∀ j col x, Mem.read2 text j col = Some x →
       x = Chr (textChar sample_text) ∨ x = Chr (backgroundChar sample_text)).
Proof.
  apply (createText_copies_other_marks sample_text sample_table_x).
  - unfold valid. apply (bool_decide_unpack _). by vm_compute.
  - unfold cube, rect. apply (bool_decide_unpack _). by vm_compute.
Defined.

(** On the sample table with [x] marks the buffer holds [x] cells, which
    are neither [textChar] nor [backgroundChar]. *)
Example createText_sample_x :
  createText sample_text sample_table_x = Some sample_buffer_x.
Proof. by vm_compute. Qed.

(** * [output] *)

Section output.
Variables (this : PseudographicText.t) (text : list (list cell)).
Variables (line column : Z).
Local Abbreviation n := (side this).
Local Abbreviation len := (length (str this)).
Local Abbreviation bc := (backgroundChar this).

Lemma spaced_row_S m g r :
  spaced_row m (S g) bc r
  = spaced_row m g bc r ++ (Put <$> take m (drop (g * m) r)) ++ [Put (Chr bc)].
Proof.
  unfold spaced_row. rewrite seq_S, fmap_app, join_app. simpl.
  by rewrite app_nil_r.
Qed.

(** The test of the inner loop holds exactly at the last cell of a glyph. *)
Lemma spacing_test g k :
  k < n →
  Z.rem (Z.of_nat (g * n + k) + 1) (fontSize this) = 0%Z ↔ S k = n.
Proof.
  intros Hk. assert (fontSize this = Z.of_nat n) as -> by (unfold side in *; lia).
  rewrite Z.rem_mod_nonneg by lia.
  replace (Z.of_nat (g * n + k) + 1)%Z with (Z.of_nat (S k + g * n)) by lia.
  rewrite <- Nat2Z.inj_mod, Nat.Div0.mod_add.
  destruct (decide (S k = n)) as [He|He].
  - rewrite He, Nat.Div0.mod_same. done.
  - rewrite Nat.mod_small by lia. lia.
Qed.

(** The inner loop writes the spaced row and leaves the colour alone. *)
Lemma show_cells_spaced i r w :
  0 < n → text !! i = Some r → length r = len * n →
  ∃ w',
    Mem.for_upto (len * n) (show_cell this text i) w = Some w' ∧
    Console.attribute w' = Console.attribute w ∧
    Console.trace w' = Console.trace w ++ spaced_row n len bc r.
Proof.
  intros Hn Hr Hlen.
  destruct (for_upto_rule
    (λ j w', ∃ g k, j = g * n + k ∧ k < n ∧
       Console.attribute w' = Console.attribute w ∧
       Console.trace w' = Console.trace w ++ spaced_row n g bc r
                            ++ (Put <$> take k (drop (g * n) r)))
    (len * n) (show_cell this text i) w) as (w' & Hw' & g & k & Hj & Hk & Ha & Ht).
  - exists 0, 0. split_and!; [done.. |]. by rewrite !app_nil_r.
  - intros j w1 Hj (g & k & -> & Hk & Ha & Ht).
    destruct (lookup_lt_is_Some_2 r (g * n + k)) as [x Hx]; [lia |].
    unfold show_cell, Mem.read2. rewrite Hr. cbn [mbind option_bind].
    rewrite Hx. cbn [mbind option_bind]. eexists; split; [done |].
    assert (take (S k) (drop (g * n) r) = take k (drop (g * n) r) ++ [x]) as Hk1.
    { apply take_S_r. by rewrite lookup_drop. }
    case_decide as Htest; rewrite spacing_test in Htest by done.
    + exists (S g), 0. split_and!; simpl; [lia | lia | done |].
      rewrite Htest in Hk1.
      rewrite Ht, spaced_row_S, Hk1, fmap_app, <- !app_assoc. done.
    + exists g, (S k). split_and!; simpl; [lia | lia | done |].
      rewrite Ht, Hk1, fmap_app, <- !app_assoc. done.
  - exists w'. split_and!; [done.. |].
    destruct (column_inj this len 0 g k) as [<- <-]; [done | done | lia |].
    by rewrite Ht, app_nil_r.
Qed.

(** A row of [output]. *)
Lemma show_row_shown i r w :
  0 < n → text !! i = Some r → length r = len * n →
  ∃ w',
    show_row this text line column i w = Some w' ∧
    Console.attribute w' = Console.attribute w ∧
    Console.trace w' = Console.trace w ++ shown_row this text line column i.
Proof.
  intros Hn Hr Hlen. unfold show_row. fold n.
  destruct (show_cells_spaced i r
              (Console.emit
                 (SetConsoleCursorPosition (Console.to_SHORT column)
                    (Console.to_SHORT (line + Z.of_nat i))) w))
    as (w' & -> & Ha & Ht); [done.. |].
  cbn [mbind option_bind]. eexists; split; [done |]. split; [done |].
  simpl. rewrite Ht. unfold shown_row. rewrite Hr. simpl.
  by rewrite <- !app_assoc.
Qed.

(** [output] on a buffer of the shape [createText] gives it. *)
Lemma output_shown w :
  rect n (len * n) text →
  output this text line column w
  = Some (Console.mk default_attribute
            (Console.trace w ++ shown this text line column)).
Proof.
  intros [Hl Hw]. unfold output. fold n.
  set (w0 := Console.emit _ (Console.emit _ w)).
  destruct (for_upto_rule
    (λ i w', Console.attribute w' = Console.attribute w0 ∧
       Console.trace w' = Console.trace w0
         ++ mjoin (shown_row this text line column <$> seq 0 i))
    n (show_row this text line column) w0) as (w' & -> & Ha & Ht).
  - by rewrite app_nil_r.
  - intros i w1 Hi [Ha Ht].
    destruct (lookup_lt_is_Some_2 text i) as [r Hr]; [lia |].
    pose proof (Forall_lookup_1 _ _ _ _ Hw Hr) as Hlen. simpl in Hlen.
    destruct (show_row_shown i r w1) as (w2 & -> & Ha2 & Ht2); [lia | done.. |].
    eexists; split; [done |]. split; [congruence |].
    rewrite Ht2, Ht, seq_S, fmap_app, join_app. simpl.
    by rewrite app_nil_r, <- !app_assoc.
  - cbn [mbind option_bind]. unfold Console.emit at 1. simpl. f_equal. f_equal.
    rewrite Ht. unfold shown, w0. simpl. by rewrite <- !app_assoc.
Qed.

End output.

(** C7.  For valid content, [output] writes the buffer [createText] made
    as [shown] describes: in every row, after the [fontSize] cells of each
    character comes one [backgroundChar] ([spaced_row]).  That character is
    written by [output] alone: the rows of the buffer have
    [str.size() * fontSize] cells, the glyph cells and nothing else. *)
Theorem output_spaces_glyphs (this : PseudographicText.t)
  (charTable : list (list (list cell))) (text : list (list cell))
  (line column : Z) (w : Console.t) :
  valid (str this) →
  cube (length availableChars) (side this) (side this) charTable →
  createText this charTable = Some text →
  Forall (λ r, length r = length (str this) * side this) text ∧
  output this text line column w
  = Some (Console.mk default_attribute
            (Console.trace w ++ shown this text line column)).
Proof.
  intros Hv Hc Ht.
  destruct (createText_valid this charTable Hv Hc) as (text' & Ht' & Hr & _).
  assert (text' = text) as -> by congruence.
  split; [by destruct Hr |]. by apply output_shown.
Qed.

Lemma output_spaces_glyphs_witness :
  Forall (λ r, length r = length (str sample_text) * side sample_text)
    sample_buffer ∧
  output sample_text sample_buffer 3 4 (Console.mk 7 [])
  = Some (Console.mk default_attribute
            (Console.trace (Console.mk 7 [])
               ++ shown sample_text sample_buffer 3 4)).
Proof.
  apply (output_spaces_glyphs sample_text sample_table).
  - unfold valid. apply (bool_decide_unpack _). by vm_compute.
  - unfold cube, rect. apply (bool_decide_unpack _). by vm_compute.
  - by vm_compute.
Defined.

(** * [print] *)

(** [print] on an object with valid content: the table is loaded, the
    buffer composed and written, and nothing goes to the error stream. *)
Lemma print_shown this line column fs w :
  valid (str this) →
  ∃ text,
    createText this
      (reconstruct (side this) (marks (fs (table_file_name this))))
    = Some text ∧
    rect (side this) (length (str this) * side this) text ∧
    print this line column fs w
    = Some (mkWorld
              (Console.mk default_attribute
                 (Console.trace (console w) ++ shown this text line column))
              (cerr w)).
Proof.
  intros Hv. destruct (createCharTable_loaded this fs) as (t & Ht & Hc & Hr).
  assert (t = reconstruct (side this) (marks (fs (table_file_name this))))
    as Heq by (by apply cube_ext).
  destruct (createText_valid this t Hv Hc) as (text & Htext & Hrect & _).
  exists text. rewrite <- Heq. split_and!; [done.. |].
  unfold print. rewrite Ht. cbn [mbind option_bind].
  rewrite Htext. cbn [mbind option_bind].
  by rewrite (output_shown this text line column (console w) Hrect).
Qed.

(** The content of an object a program can have is valid. *)
Lemma reachable_valid this : reachable this → valid (str this).
Proof.
  assert (∀ s this w, valid (str this) → valid (str (setString s this w).1))
    as Hset.
  { intros s this0 w Hv. unfold setString.
    destruct (first_unavailable s) eqn:Hs; [done |].
    by apply first_unavailable_None. }
  induction 1; try done.
  - by constructor.
  - unfold construct.
    destruct (setString s _ w) as [this0 w0] eqn:Hs. simpl.
    change (str this0) with (str (this0, w0).1). rewrite <- Hs.
    apply Hset. by constructor.
  - by apply Hset.
Qed.

(** The first object of [main]: default-constructed, then [setString]. *)
Example main_text1 :
  setString (list_ascii_of_string "HELLO!") default sample_world
  = (mk (list_ascii_of_string "HELLO!") "#" " " 5 BrightWhite, sample_world) ∧
  state (mk (list_ascii_of_string "HELLO!") "#" " " 5 BrightWhite)
  = list_ascii_of_string
      "(String: HELLO!, TextChar: #, BackgroundChar:  , FontSize: 5, TextColor: 15)".
Proof. split; by vm_compute. Qed.

(** C8.  When [output] returns, and so when [print] does, the console's
    attribute is [Black * 16 + BrightWhite], that is 15: background 0
    (black) in the high nibble, foreground 15 (bright white) in the low
    one; whatever the colour of the text was. *)
Theorem output_resets_color (this : PseudographicText.t)
  (text : list (list cell)) (line column : Z) (w w' : Console.t) :
  output this text line column w = Some w' →
  Console.attribute w' = 15%Z ∧
  (Console.attribute w' `div` 16 = Color_to_int Black)%Z ∧
  (Console.attribute w' `mod` 16 = Color_to_int BrightWhite)%Z ∧
  ∀ fs u u', print this line column fs u = Some u' →
             Console.attribute (console u') = 15%Z.
Proof.
  assert (∀ this text line column w w',
            output this text line column w = Some w' →
            Console.attribute w' = 15%Z) as Hout.
  { clear. intros this text line column w w'. unfold output.
    destruct (Mem.for_upto _ _ _); [| done]. by intros [= <-]. }
  intros Ho. rewrite (Hout _ _ _ _ _ _ Ho). split_and!; [done.. |].
  intros fs u u'. unfold print.
  destruct (createCharTable this fs); [| done]. cbn [mbind option_bind].
  destruct (createText this _); [| done]. cbn [mbind option_bind].
  destruct (output this _ line column (console u)) eqn:Ho'; [| done].
  intros [= <-]. simpl. by eapply Hout.
Qed.

Lemma output_resets_color_witness :
  ∃ w',
    output (setTextColor Red sample_text) sample_buffer 3 4 (Console.mk 7 [])
    = Some w' ∧ Console.attribute w' = 15%Z.
Proof.
  eexists. split; [by vm_compute |].
  eapply (output_resets_color (setTextColor Red sample_text) sample_buffer 3 4
            (Console.mk 7 [])).
  by vm_compute.
Defined.




(** * The font size *)

Section sizes.
Implicit Types (this : PseudographicText.t) (size : FontSize).

Lemma named_size size :
  named size → FontSize_to_int size = 5%Z ∨ FontSize_to_int size = 7%Z.
Proof. intros [-> | ->]; [by left | by right]. Qed.

(** With named sizes only, the stored size is 5 or 7. *)
Lemma reachable_named_fontSize this :
  reachable_named this → fontSize this = 5%Z ∨ fontSize this = 7%Z.
Proof.
  induction 1 as [| s tc bc size color w Hn | s this w _ IH | | | size this Hn |];
    simpl; try done.
  - by left.
  - unfold construct. destruct (setString s _ w). by apply named_size.
  - unfold setString. by destruct (first_unavailable s).
  - by apply named_size.
Qed.

Lemma reachable_named_reachable this : reachable_named this → reachable this.
Proof. induction 1; by constructor. Qed.

End sizes.

(** C9, as the code has it.  The stored font size is 5 in a
    default-constructed object, and [setFontSize] stores the integer of
    its argument, whichever it is.  So the size is 5 or 7 in every object
    of a program that passes only the named sizes [Small] and [Big], and
    then the glyphs [createCharTable] loads have 5 or 7 rows of as many
    cells and the buffer [createText] makes of them has 5 or 7 rows. *)
Theorem fontSize_named_is_5_or_7 :
  fontSize default = 5%Z ∧
  (∀ size this, fontSize (setFontSize size this) = FontSize_to_int size) ∧
  (∀ size this, named size →
     fontSize (setFontSize size this) = 5%Z ∨
     fontSize (setFontSize size this) = 7%Z) ∧
  ∀ this, reachable_named this →
    (fontSize this = 5%Z ∨ fontSize this = 7%Z) ∧
    (side this = 5 ∨ side this = 7) ∧
    ∀ fs, ∃ t text,
      createCharTable this fs = Some t ∧
      createText this t = Some text ∧
      Forall (λ g, length g = side this ∧
                   Forall (λ r, length r = side this) g) t ∧
      length text = side this.
Proof.
  split; [done |]. split; [done |].
  split; [intros size this Hn; by apply named_size |].
  intros this Hr. pose proof (reachable_named_fontSize this Hr) as Hf.
  split; [done |]. split; [unfold side; lia |]. intros fs.
  destruct (createCharTable_loaded this fs) as (t & Ht & Hc & _).
  destruct (createText_valid this t
              (reachable_valid this (reachable_named_reachable this Hr)) Hc)
    as (text & Htext & [Hl _] & _).
  exists t, text. split_and!; [done | done | | done]. by destruct Hc.
Qed.

(** C9 as stated fails: [setFontSize] takes [static_cast<FontSize>(6)] like
    any other value of the enumeration, and the object then holds 6. *)
Lemma fontSize_cast_is_stored :
  reachable (setFontSize (static_cast_FontSize 6) default) ∧
  fontSize (setFontSize (static_cast_FontSize 6) default) = 6%Z ∧
  fontSize (setFontSize (static_cast_FontSize 6) default) ≠ 5%Z ∧
  fontSize (setFontSize (static_cast_FontSize 6) default) ≠ 7%Z ∧
  table_file_name (setFontSize (static_cast_FontSize 6) default)
  = list_ascii_of_string "font_size_6.txt".
Proof.
  split_and!; [| done..]. apply reach_setFontSize, reach_default.
Qed.

(** * The alphabet, in all *)

(** C2, as the code has it.  [availableChars] is the described alphabet in
    the described order, without repetition, and it has 41 characters (26
    letters, the space, 4 punctuation marks, 10 digits); [setString]
    stores exactly the strings over it; and the position of a character
    in it is the index [find] gives for the glyph table, which has one
    glyph per position. *)
Theorem availableChars_is_alphabet :
  availableChars = alphabet ∧
  length availableChars = 41 ∧
  NoDup availableChars ∧
  (∀ s, first_unavailable s = None ↔ valid s) ∧
  (∀ s this w, valid s → str (setString s this w).1 = s) ∧
  (∀ p c, alphabet !! p = Some c → std.find availableChars c = Some p) ∧
  (∀ this fs t, createCharTable this fs = Some t →
                length t = length alphabet).
Proof.
  split_and!.
  - apply availableChars_alphabet.
  - reflexivity.
  - apply availableChars_NoDup.
  - apply first_unavailable_None.
  - intros s this w Hs. by rewrite setString_accepts_valid.
  - intros p c Hp. apply find_lookup; [apply availableChars_NoDup | done].
  - intros this fs t Ht.
    destruct (createCharTable_loaded this fs) as (t' & Ht' & [Hl _] & _).
    rewrite <- availableChars_alphabet. congruence.
Qed.

(** C2 as stated fails on the count: the alphabet as described has 41
    characters, not 42. *)
Lemma availableChars_not_42 :
  length alphabet = 41 ∧ length availableChars = 41 ∧
  length availableChars ≠ 42.
Proof. split_and!; [reflexivity | reflexivity | by vm_compute]. Qed.

(** * Further properties of the class *)

Section content.
Implicit Types (s : list ascii) (this : PseudographicText.t) (w : world).

(** X1.  [setString] stores the string it is given, changes no other
    member and writes nothing to the error stream, exactly when every
    character of the string is in the alphabet. *)
Theorem setString_stores_iff_valid s this w :
  setString s this w = (with_content s this, w) ↔ valid s.
Proof.
  split; [| apply setString_accepts_valid].
  unfold setString. destruct (first_unavailable s) as [c|] eqn:Hc.
  - intros [= _ Hw]. apply (f_equal cerr) in Hw. simpl in Hw.
    apply (f_equal length) in Hw. rewrite length_app in Hw.
    unfold unavailable_message in Hw. rewrite !length_app in Hw.
    simpl in Hw. lia.
  - intros _. by apply first_unavailable_None.
Qed.

(** X2.  The content of every object a program can have is over the
    alphabet; storing that content again changes nothing and reports
    nothing. *)
Theorem reachable_content_valid this w :
  reachable this →
  valid (str this) ∧ setString (str this) this w = (this, w).
Proof.
  intros Hr. pose proof (reachable_valid this Hr) as Hv. split; [done |].
  rewrite setString_accepts_valid by done. by destruct this.
Qed.

Lemma reachable_content_valid_witness :
  valid (str (construct (list_ascii_of_string "HI") "#" " " Big Red
                sample_world).1) ∧
  setString
    (str (construct (list_ascii_of_string "HI") "#" " " Big Red
            sample_world).1)
    (construct (list_ascii_of_string "HI") "#" " " Big Red sample_world).1
    sample_world
  = ((construct (list_ascii_of_string "HI") "#" " " Big Red sample_world).1,
     sample_world).
Proof.
  apply (reachable_content_valid
           (construct (list_ascii_of_string "HI") "#" " " Big Red
              sample_world).1).
  apply reach_construct.
Defined.

End content.

Section compose.
Variables (this : PseudographicText.t) (charTable : list (list (list cell))).
Local Abbreviation n := (side this).
Local Abbreviation len := (length (str this)).
Local Abbreviation chars := (length availableChars).

(** Two arrays of one shape with the same cells are the same. *)
Lemma rect_eq h w (a b : list (list cell)) :
  rect h w a → rect h w b →
  (∀ j c, j < h → c < w → Mem.read2 a j c = Mem.read2 b j c) →
  a = b.
Proof.
  intros Ha Hb Hab.
  rewrite (rect_ext h w a (λ j c, from_option id Indet (Mem.read2 a j c)) Ha),
    (rect_ext h w b (λ j c, from_option id Indet (Mem.read2 a j c)) Hb).
  - done.
  - intros j c Hj Hc. rewrite <- Hab by done.
    by destruct (read2_Some h w a j c Ha Hj Hc) as [x ->].
  - intros j c Hj Hc.
    by destruct (read2_Some h w a j c Ha Hj Hc) as [x ->].
Qed.

Hypotheses (content_valid : valid (str this))
           (table_shape : cube chars n n charTable).

(** The glyph rows of the characters of the content are whole. *)
Lemma glyph_row_mark i c j k :
  str this !! i = Some c → j < n → k < n →
  glyph_row charTable c j !! k = glyph_mark this charTable i j k ∧
  length (glyph_row charTable c j) = n.
Proof.
  intros Hi Hj Hk. unfold glyph_row, glyph_mark. rewrite Hi.
  cbn [mbind option_bind].
  pose proof (Forall_lookup_1 _ _ _ _ content_valid Hi) as Ha.
  apply list_elem_of_lookup_1 in Ha as [p Hp].
  rewrite (find_lookup availableChars c p);
    [| apply availableChars_NoDup | by rewrite availableChars_alphabet].
  cbn [mbind option_bind]. destruct table_shape as [Hl Hg].
  destruct (lookup_lt_is_Some_2 charTable p) as [g Hgp].
  { apply lookup_lt_Some in Hp. rewrite Hl. by rewrite availableChars_alphabet. }
  destruct (Forall_lookup_1 _ _ _ _ Hg Hgp) as [Hh Hr].
  destruct (lookup_lt_is_Some_2 g j) as [r Hrj]; [lia |].
  pose proof (Forall_lookup_1 _ _ _ _ Hr Hrj) as Hw. simpl in Hw.
  unfold Mem.read3, Mem.read2. rewrite Hgp. cbn [mbind option_bind].
  by rewrite Hrj.
Qed.

Lemma compose_rect : rect n (len * n) (compose this charTable).
Proof.
  unfold compose. split; [by rewrite length_fmap, length_seq |].
  apply Forall_fmap, Forall_seq. intros j [_ Hj]. simpl in *.
  rewrite length_join, (sum_list_fmap_same n), length_fmap; [done |].
  apply Forall_fmap, Forall_lookup_2. intros i c Hi. simpl.
  rewrite length_fmap. apply (glyph_row_mark i c j 0 Hi Hj). lia.
Qed.

Lemma compose_cell i j k :
  i < len → j < n → k < n →
  Mem.read2 (compose this charTable) j (i * n + k)
  = substitute this <$> glyph_mark this charTable i j k.
Proof.
  intros Hi Hj Hk. unfold Mem.read2, compose.
  rewrite list_lookup_fmap, lookup_seq_lt by done. cbn [fmap option_fmap
    option_map mbind option_bind]. simpl.
  destruct (lookup_lt_is_Some_2 (str this) i Hi) as [c Hc].
  destruct (glyph_row_mark i c j k Hc Hj Hk) as [Hm Hlen].
  destruct (glyph_mark_defined this charTable content_valid table_shape i j k)
    as [m Hmm]; [done.. |].
  rewrite Hmm. simpl. apply (join_lookup_Some_same_length' n); [| done |].
  - apply Forall_fmap, Forall_lookup_2. intros i' c' Hi'. simpl.
    rewrite length_fmap. by apply (glyph_row_mark i' c' j k).
  - exists (substitute this <$> glyph_row charTable c j).
    rewrite !list_lookup_fmap, Hc, Hm, Hmm. done.
Qed.

(** [createText] makes the buffer [compose] describes. *)
Lemma createText_compose :
  createText this charTable = Some (compose this charTable).
Proof.
  destruct (createText_cells this charTable
              (glyph_mark_defined this charTable content_valid table_shape))
    as (text & -> & Hr & Hc).
  f_equal. apply (rect_eq n (len * n)); [done | apply compose_rect |].
  intros j c Hj Hcol.
  assert (0 < n) as Hn by nia.
  pose proof (Nat.div_mod_eq c n) as Hdm.
  pose proof (Nat.mod_upper_bound c n) as Hk.
  assert (c `div` n < len) as Hi by (apply Nat.Div0.div_lt_upper_bound; lia).
  replace c with (c `div` n * n + c `mod` n) by lia.
  rewrite Hc, compose_cell by lia. done.
Qed.

End compose.

(** X3.  For valid content, a font size that is not negative (5 and 7 are
    the ones a program can have) and a table of one [fontSize] by [fontSize]
    glyph per character, the three loops of [createText] build the buffer
    whose row [j] is the concatenation, over the characters of the content
    from left to right, of row [j] of each character's glyph with ['1']
    replaced by [textChar] and ['0'] by [backgroundChar]. *)
Theorem createText_is_compose (this : PseudographicText.t)
  (charTable : list (list (list cell))) :
  (0 ≤ fontSize this)%Z →
  valid (str this) →
  cube (length availableChars) (side this) (side this) charTable →
  createText this charTable = Some (compose this charTable).
Proof. intros _. apply createText_compose. Qed.

Lemma createText_is_compose_witness :
  createText sample_text sample_table = Some (compose sample_text sample_table).
Proof.
  apply (createText_is_compose sample_text sample_table).
  - done.
  - unfold valid. apply (bool_decide_unpack _). by vm_compute.
  - unfold cube, rect. apply (bool_decide_unpack _). by vm_compute.
Defined.

(** X4.  Composition follows concatenation of the content: the buffer for
    [s1 ++ s2] has, row by row, the row of the buffer for [s1] followed by
    the row of the buffer for [s2] (the font size being non-negative). *)
Theorem createText_app (this : PseudographicText.t) (s1 s2 : list ascii)
  (charTable : list (list (list cell))) :
  (0 ≤ fontSize this)%Z →
  valid s1 → valid s2 →
  cube (length availableChars) (side this) (side this) charTable →
  ∃ text1 text2,
    createText (with_content s1 this) charTable = Some text1 ∧
    createText (with_content s2 this) charTable = Some text2 ∧
    createText (with_content (s1 ++ s2) this) charTable
    = Some (zip_with app text1 text2).
Proof.
  intros _ H1 H2 Hc.
  exists (compose (with_content s1 this) charTable),
         (compose (with_content s2 this) charTable).
  rewrite !createText_compose; try done.
  - split_and!; [done.. |]. f_equal. unfold compose. simpl.
    change (side (with_content _ this)) with (side this).
    rewrite zip_with_fmap_l, zip_with_fmap_r, zip_with_diag.
    apply list_fmap_ext. intros _ j _. by rewrite fmap_app, join_app.
  - by apply Forall_app.
Qed.

Lemma createText_app_witness :
  ∃ text1 text2,
    createText (with_content (list_ascii_of_string "HI") sample_text)
      sample_table = Some text1 ∧
    createText (with_content (list_ascii_of_string " THERE!") sample_text)
      sample_table = Some text2 ∧
    createText
      (with_content
         (list_ascii_of_string "HI" ++ list_ascii_of_string " THERE!")
         sample_text) sample_table
    = Some (zip_with app text1 text2).
Proof.
  apply (createText_app sample_text).
  - done.
  - unfold valid. apply (bool_decide_unpack _). by vm_compute.
  - unfold valid. apply (bool_decide_unpack _). by vm_compute.
  - unfold cube, rect. apply (bool_decide_unpack _). by vm_compute.
Defined.

(** * Further properties of loading and printing *)

Section loading.
Implicit Types (this : PseudographicText.t) (fs : files).

(** Two tables of one shape with the same cells are the same. *)
Lemma cube_eq m h w (a b : list (list (list cell))) :
  cube m h w a → cube m h w b →
  (∀ i j k, i < m → j < h → k < w → Mem.read3 a i j k = Mem.read3 b i j k) →
  a = b.
Proof.
  intros Ha Hb Hab.
  rewrite (cube_ext m h w a
             (λ i j k, from_option id Indet (Mem.read3 a i j k)) Ha),
    (cube_ext m h w b
       (λ i j k, from_option id Indet (Mem.read3 a i j k)) Hb).
  - done.
  - intros i j k Hi Hj Hk. rewrite <- Hab by done.
    by destruct (read3_Some m h w a i j k Ha Hi Hj Hk) as [x ->].
  - intros i j k Hi Hj Hk.
    by destruct (read3_Some m h w a i j k Ha Hi Hj Hk) as [x ->].
Qed.

Lemma mark_pos_lt n i j k :
  i < length availableChars → j < n → k < n →
  mark_pos n i j k < length availableChars * n * n.
Proof. unfold mark_pos. nia. Qed.

End loading.

(** X5.  What [createCharTable] returns depends on the resource only
    through its first [41 * fontSize * fontSize] characters other than
    white space: how they are spread over lines and what follows them
    makes no difference (the font size being non-negative). *)
Theorem createCharTable_reads_marks (this : PseudographicText.t)
  (fs fs' : files) :
  (0 ≤ fontSize this)%Z →
  take (length availableChars * side this * side this)
    (marks (fs (table_file_name this)))
  = take (length availableChars * side this * side this)
      (marks (fs' (table_file_name this))) →
  createCharTable this fs = createCharTable this fs'.
Proof.
  intros _ Hm.
  destruct (createCharTable_loaded this fs) as (t & -> & Hc & Hr).
  destruct (createCharTable_loaded this fs') as (t' & -> & Hc' & Hr').
  f_equal. apply (cube_eq _ _ _ t t' Hc Hc'). intros i j k Hi Hj Hk.
  rewrite Hr, Hr' by done. f_equal. unfold mark_at.
  pose proof (mark_pos_lt (side this) i j k Hi Hj Hk) as Hp.
  rewrite <- (lookup_take_lt (marks (fs _)) _ _ Hp),
    <- (lookup_take_lt (marks (fs' _)) _ _ Hp).
  by rewrite Hm.
Qed.

Lemma createCharTable_reads_marks_witness :
  createCharTable sample_text (sample_files "10 ")
  = createCharTable sample_text
      (λ _, Some (mjoin (replicate 600 ["1"; "010"; " "; "0"; "009"]%char))).
Proof.
  apply (createCharTable_reads_marks sample_text); [done |]. by vm_compute.
Defined.

(** X6.  An object of a program that passes only the named sizes [Small]
    and [Big] opens [font_size_5.txt] or [font_size_7.txt] and no other
    file: [print] gives the same result under any two file systems that
    agree on the one its font size names.  (A size cast from another
    integer names another file, [font_size_6.txt] for 6.) *)
Theorem print_reads_one_file (this : PseudographicText.t) :
  reachable_named this →
  (table_file_name this = list_ascii_of_string "font_size_5.txt" ∨
   table_file_name this = list_ascii_of_string "font_size_7.txt") ∧
  ∀ fs fs' line column w,
    fs (table_file_name this) = fs' (table_file_name this) →
    print this line column fs w = print this line column fs' w.
Proof.
  intros Hr. split.
  - unfold table_file_name.
    destruct (reachable_named_fontSize this Hr) as [-> | ->];
      [by left | by right].
  - intros fs fs' line column w Hf. unfold print, createCharTable.
    by rewrite Hf.
Qed.

Lemma print_reads_one_file_witness :
  (table_file_name (setFontSize Big default)
   = list_ascii_of_string "font_size_5.txt" ∨
   table_file_name (setFontSize Big default)
   = list_ascii_of_string "font_size_7.txt") ∧
  ∀ fs fs' line column w,
    fs (table_file_name (setFontSize Big default))
    = fs' (table_file_name (setFontSize Big default)) →
    print (setFontSize Big default) line column fs w
    = print (setFontSize Big default) line column fs' w.
Proof.
  apply (print_reads_one_file (setFontSize Big default)).
  apply named_setFontSize; [by right | apply named_default].
Defined.

(** X7.  Take an object with valid content (every object a program can
    have has it), a font size that is not negative, and a content and a
    line small enough for the [int] arithmetic of the loops: the length
    of the content and its product with the font size are at most
    [INT_MAX], and so is the line plus the font size.  Then the [int]
    expressions [i * fontSize + k], [j + 1] and [line + i] of [createText]
    and [output] stay in the range of [int], and [print] never reads or
    writes outside the arrays it allocates, whatever the files hold: it
    returns with the error stream as it was and with everything that was
    on the console still there, followed by what it wrote. *)
Theorem print_stays_in_bounds (this : PseudographicText.t) (line column : Z)
  (fs : files) (w : world) :
  valid (str this) →
  (0 ≤ fontSize this)%Z →
  (Z.of_nat (length (str this)) ≤ 2147483647)%Z →
  (Z.of_nat (length (str this)) * fontSize this ≤ 2147483647)%Z →
  (-2147483648 ≤ line ∧ line + fontSize this ≤ 2147483647)%Z →
  (∃ w' evs,
     print this line column fs w = Some w' ∧
     cerr w' = cerr w ∧
     Console.trace (console w') = Console.trace (console w) ++ evs) ∧
  (∀ i k, i < length (str this) → k < side this →
     (0 ≤ Z.of_nat i * fontSize this + Z.of_nat k ≤ 2147483647)%Z ∧
     i * side this + k < length (str this) * side this) ∧
  (∀ j, j < length (str this) * side this →
     (Z.of_nat j + 1 ≤ 2147483647)%Z) ∧
  (∀ i, i < side this →
     (-2147483648 ≤ line + Z.of_nat i ≤ 2147483647)%Z).
Proof.
  intros Hv Hf Hlen Hprod Hline. split_and!.
  - destruct (print_shown this line column fs w Hv) as (text & _ & _ & ->).
    by eexists _, _.
  - intros i k Hi Hk. unfold side in *. split; nia.
  - intros j Hj. unfold side in *. nia.
  - intros i Hi. unfold side in *. lia.
Qed.

Lemma print_stays_in_bounds_witness :
  (∃ w' evs,
     print (mk (list_ascii_of_string "WELCOME!") "@" " " 7 BrightGreen) 10 10
       no_files sample_world = Some w' ∧
     cerr w' = cerr sample_world ∧
     Console.trace (console w') = Console.trace (console sample_world) ++ evs)
  ∧
  (∀ i k, i < 8 → k < 7 →
     (0 ≤ Z.of_nat i * 7 + Z.of_nat k ≤ 2147483647)%Z ∧ i * 7 + k < 8 * 7) ∧
  (∀ j, j < 8 * 7 → (Z.of_nat j + 1 ≤ 2147483647)%Z) ∧
  (∀ i, i < 7 → (-2147483648 ≤ 10 + Z.of_nat i ≤ 2147483647)%Z).
Proof.
  apply (print_stays_in_bounds
           (mk (list_ascii_of_string "WELCOME!") "@" " " 7 BrightGreen) 10 10
           no_files sample_world).
  - unfold valid. apply (bool_decide_unpack _). by vm_compute.
  - done.
  - done.
  - done.
  - done.
Defined.





Section characters.
Variables (this : PseudographicText.t).
Local Abbreviation n := (side this).
Local Abbreviation len := (length (str this)).

(** The cells of a table rebuilt from enough marks, all ['1'] or ['0']. *)
Lemma reconstruct_binary ms :
  length availableChars * n * n ≤ length ms →
  Forall (λ c, c = "1"%char ∨ c = "0"%char)
    (take (length availableChars * n * n) ms) →
  binary (reconstruct n ms).
Proof.
  intros Hlen Hb. unfold binary, reconstruct.
  apply Forall_fmap, Forall_seq. intros i [_ Hi]. simpl in Hi. cbn [compose].
  apply Forall_fmap, Forall_seq. intros j [_ Hj]. simpl in Hj.
  apply Forall_fmap, Forall_seq. intros k [_ Hk]. simpl in Hk.
  pose proof (mark_pos_lt n i j k Hi Hj Hk) as Hp. unfold mark_at. simpl.
  destruct (lookup_lt_is_Some_2 ms (mark_pos n i j k)) as [c Hc]; [lia |].
  rewrite Hc.
  assert (take (length availableChars * n * n) ms !! mark_pos n i j k = Some c)
    as Hc' by (by rewrite lookup_take_lt).
  destruct (Forall_lookup_1 _ _ _ _ Hb Hc') as [-> | ->]; [by left | by right].
Qed.

(** Over a binary table every cell of the composed buffer is [textChar]
    or [backgroundChar]. *)
Lemma compose_binary charTable :
  binary charTable →
  Forall (Forall (λ x, x = Chr (textChar this) ∨ x = Chr (backgroundChar this)))
    (compose this charTable).
Proof.
  intros Hb. unfold compose. apply Forall_fmap, Forall_seq. intros j _. simpl.
  apply Forall_join, Forall_fmap, Forall_lookup_2. intros i c _. simpl.
  apply Forall_fmap. unfold glyph_row.
  destruct (std.find availableChars c) as [p|]; [| by constructor].
  cbn [mbind option_bind].
  destruct (charTable !! p) as [g|] eqn:Hg; [| by constructor].
  cbn [mbind option_bind].
  destruct (g !! j) as [r|] eqn:Hr; [| by constructor]. simpl.
  pose proof (Forall_lookup_1 _ _ _ _ (Forall_lookup_1 _ _ _ _ Hb Hg) Hr) as Hm.
  eapply Forall_impl; [exact Hm |]. intros m [-> | ->]; unfold substitute; simpl.
  - by left.
  - by right.
Qed.

(** What [output] writes of a row of such cells. *)
Lemma spaced_row_written (P : cell → Prop) m g bc r :
  Forall P r → P (Chr bc) → Forall P (spaced_row m g bc r ≫= written).
Proof.
  intros Hr Hbc. apply Forall_bind. unfold spaced_row.
  apply Forall_join, Forall_fmap, Forall_lookup_2. intros i x _. simpl.
  apply Forall_app. split.
  - apply Forall_fmap. eapply Forall_impl.
    + apply Forall_take, Forall_drop, Hr.
    + intros c Hc. simpl. by constructor.
  - repeat constructor. done.
Qed.

Lemma shown_written (P : cell → Prop) text line column :
  Forall (Forall P) text → P (Chr (backgroundChar this)) → P (Chr "010") →
  Forall P (shown this text line column ≫= written).
Proof.
  intros Ht Hbc Hnl. unfold shown. rewrite !bind_app. simpl.
  apply Forall_app. split; [| done].
  apply Forall_bind, Forall_join, Forall_fmap, Forall_lookup_2.
  intros i j _. simpl. unfold shown_row. constructor; [by constructor |].
  apply Forall_app. split; [| by repeat constructor].
  apply Forall_bind, spaced_row_written; [| done].
  destruct (text !! j) as [r|] eqn:Hr; [| by constructor].
  apply (Forall_lookup_1 _ _ _ _ Ht Hr).
Qed.

End characters.

(** X10.  With valid content, a font size that is not negative and a font
    file that holds at least
    [41 * fontSize * fontSize] marks, all of them ['1'] or ['0'], every
    character [print] writes to the console is [textChar],
    [backgroundChar] or a line feed. *)
Theorem print_writes_ink_fill_newline (this : PseudographicText.t)
  (line column : Z) (fs : files) (w : world) :
  (0 ≤ fontSize this)%Z →
  valid (str this) →
  length availableChars * side this * side this
    ≤ length (marks (fs (table_file_name this))) →
  Forall (λ c, c = "1"%char ∨ c = "0"%char)
    (take (length availableChars * side this * side this)
       (marks (fs (table_file_name this)))) →
  ∃ evs,
    print this line column fs w
    = Some (mkWorld
              (Console.mk default_attribute (Console.trace (console w) ++ evs))
              (cerr w)) ∧
    Forall (λ x, x = Chr (textChar this) ∨ x = Chr (backgroundChar this)
                 ∨ x = Chr "010")
      (evs ≫= written).
Proof.
  intros _ Hv Hlen Hb.
  destruct (print_shown this line column fs w Hv) as (text & Ht & Hr & ->).
  eexists; split; [done |].
  rewrite createText_compose in Ht; [| done |].
  2: { destruct (createCharTable_loaded this fs) as (t & _ & Hc & Hcells).
       assert (t = reconstruct (side this) (marks (fs (table_file_name this))))
         as <- by (by apply cube_ext).
       done. }
  injection Ht as <-. apply shown_written; [| tauto | tauto].
  eapply Forall_impl; [apply compose_binary, reconstruct_binary; done |].
  intros r Hrow. eapply Forall_impl; [exact Hrow |]. simpl. tauto.
Qed.

Lemma print_writes_ink_fill_newline_witness :
  ∃ evs,
    print sample_text 3 4 (sample_files "10 ") sample_world
    = Some (mkWorld
              (Console.mk default_attribute
                 (Console.trace (console sample_world) ++ evs))
              (cerr sample_world)) ∧
    Forall (λ x, x = Chr (textChar sample_text)
                 ∨ x = Chr (backgroundChar sample_text) ∨ x = Chr "010")
      (evs ≫= written).
Proof.
  apply (print_writes_ink_fill_newline sample_text).
  - done.
  - unfold valid. apply (bool_decide_unpack _). by vm_compute.
  - apply (bool_decide_unpack _). by vm_compute.
  - apply (bool_decide_unpack _). by vm_compute.
Defined.

Section storage.
Variables (storage : list (list (list cell))) (ms : list ascii) (n : nat).
Local Abbreviation chars := (length availableChars).
Hypothesis storage_shape : cube chars n n storage.

(** One turn of the innermost loop, over storage with a content. *)
Lemma createCharTable_over_step i j k s :
  i < chars → j < n → k < n →
  loaded_over storage ms n (mark_pos n i j k) s →
  ∃ s', load_mark i j k s = Some s' ∧
        loaded_over storage ms n (S (mark_pos n i j k)) s'.
Proof.
  intros Hi Hj Hk. destruct s as [t strm]. intros (Hc & Hm & Hr).
  unfold load_mark. cbn [fst snd] in *.
  destruct (read3_Some _ _ _ storage i j k storage_shape Hi Hj Hk)
    as [old Hold].
  rewrite (Hr i j k), Hold by done. cbn [fmap option_fmap option_map].
  rewrite decide_False by lia. cbn [mbind option_bind].
  destruct (extract_marks strm) as [Hg Hs].
  destruct (std.extract strm) as [got strm']. cbn [fst snd] in *.
  destruct (write3_Some _ _ _ t i j k (Mem.stored old got) Hc)
    as (t' & Hw & Hc'); [done.. |].
  rewrite Hw. cbn [mbind option_bind]. eexists; split; [done |].
  split_and!; cbn [fst snd].
  - done.
  - rewrite Hs, Hm, drop_drop. f_equal. lia.
  - intros i' j' k' Hi' Hj' Hk'. rewrite (read3_write3 _ _ _ _ _ _ _ _ _ Hw).
    case_decide as He.
    + destruct He as (-> & -> & ->). rewrite Hold.
      cbn [fmap option_fmap option_map]. rewrite decide_True by lia.
      by rewrite Hg, Hm, lookup_drop, Nat.add_0_r.
    + rewrite Hr by done.
      destruct (Mem.read3 storage i' j' k') as [old'|]; [| done].
      cbn [fmap option_fmap option_map]. f_equal.
      assert (mark_pos n i' j' k' ≠ mark_pos n i j k).
      { intros Hp. apply mark_pos_inj in Hp; [tauto | done..]. }
      repeat case_decide; done || lia.
Qed.

Lemma createCharTable_over_loops strm :
  stream_marks strm = ms →
  ∃ s',
    Mem.for_upto n (λ j,
      Mem.for_upto chars (λ i, Mem.for_upto n (λ k, load_mark i j k)))
      (storage, strm) = Some s' ∧
    loaded_over storage ms n (mark_pos n 0 n 0) s'.
Proof.
  intros Hs.
  apply (for_upto_rule (λ j, loaded_over storage ms n (mark_pos n 0 j 0))).
  { split_and!; cbn [fst snd]; [done | done |].
    intros i j k Hi Hj Hk.
    destruct (read3_Some _ _ _ storage i j k storage_shape Hi Hj Hk)
      as [old ->].
    cbn [fmap option_fmap option_map].
    rewrite decide_False; [done | unfold mark_pos; lia]. }
  intros j s Hj Hl.
  replace (mark_pos n 0 (S j) 0) with (mark_pos n chars j 0)
    by (unfold mark_pos; lia).
  apply (for_upto_rule (λ i, loaded_over storage ms n (mark_pos n i j 0)));
    [done |].
  clear s Hl. intros i s Hi Hl.
  replace (mark_pos n (S i) j 0) with (mark_pos n i j n)
    by (unfold mark_pos; lia).
  apply (for_upto_rule (λ k, loaded_over storage ms n (mark_pos n i j k)));
    [done |].
  clear s Hl. intros k s Hk Hl.
  replace (mark_pos n i j (S k)) with (S (mark_pos n i j k))
    by (unfold mark_pos; lia).
  by apply createCharTable_over_step.
Qed.

End storage.

(** Loading over storage with a content: a cell holds the mark at its
    place in the resource, if there is one, and what the storage held
    otherwise. *)
Lemma createCharTable_over_loaded storage this fs :
  cube (length availableChars) (side this) (side this) storage →
  ∃ t,
    createCharTable_over storage this fs = Some t ∧
    cube (length availableChars) (side this) (side this) t ∧
    ∀ i j k, i < length availableChars → j < side this → k < side this →
      Mem.read3 t i j k
      = (λ old, Mem.stored old
                  (marks (fs (table_file_name this))
                     !! mark_pos (side this) i j k))
          <$> Mem.read3 storage i j k.
Proof.
  intros Hs. unfold createCharTable_over. fold (side this).
  destruct (createCharTable_over_loops storage
              (marks (fs (table_file_name this))) (side this) Hs
              (std.open (fs (table_file_name this))))
    as ([t strm] & -> & Hc & _ & Hr); [apply open_marks |].
  exists t. split_and!; [done.. |].
  intros i j k Hi Hj Hk. cbn [fst snd] in Hr. rewrite Hr by done.
  destruct (Mem.read3 storage i j k); [| done].
  cbn [fmap option_fmap option_map]. f_equal.
  apply decide_True. pose proof (mark_pos_lt (side this) i j k Hi Hj Hk).
  unfold mark_pos in *. lia.
Qed.

(** [createCharTable] is [createCharTable_over] on storage of indeterminate
    content. *)
Lemma createCharTable_over_Indet this fs :
  createCharTable this fs
  = createCharTable_over
      (replicate (length availableChars)
         (replicate (side this) (replicate (side this) Indet))) this fs.
Proof. reflexivity. Qed.

(** X11.  When the font file cannot be opened, or holds nothing but white
    space, the loops of [createCharTable] leave every cell of the table as
    [new] handed it over, whatever it holds, and [print] of valid content
    (with a font size that is not negative) goes on to the end: for every
    glyph cell it writes [textChar] where the storage held ['1'],
    [backgroundChar] where it held ['0'], and the stored byte itself
    anywhere else. *)
Theorem print_without_marks (storage : list (list (list cell)))
  (this : PseudographicText.t) (line column : Z) (fs : files) (w : world) :
  (0 ≤ fontSize this)%Z →
  valid (str this) →
  cube (length availableChars) (side this) (side this) storage →
  marks (fs (table_file_name this)) = [] →
  createCharTable_over storage this fs = Some storage ∧
  createText this storage = Some (compose this storage) ∧
  print_over storage this line column fs w
  = Some (mkWorld
            (Console.mk default_attribute
               (Console.trace (console w)
                ++ shown this (compose this storage) line column))
            (cerr w)) ∧
  ∀ i c p j k m,
    str this !! i = Some c → alphabet !! p = Some c →
    Mem.read3 storage p j k = Some m →
    Mem.read2 (compose this storage) j (i * side this + k)
    = Some (if decide (m = Chr "1") then Chr (textChar this)
            else if decide (m = Chr "0") then Chr (backgroundChar this)
            else m).
Proof.
  intros _ Hv Hs Hm.
  assert (createCharTable_over storage this fs = Some storage) as Ht.
  { destruct (createCharTable_over_loaded storage this fs Hs)
      as (t & -> & Hc & Hr).
    f_equal. apply (cube_eq _ _ _ _ _ Hc Hs). intros i j k Hi Hj Hk.
    rewrite Hr, Hm by done. by destruct (Mem.read3 storage i j k). }
  pose proof (createText_compose this storage Hv Hs) as Hx.
  split_and!; [done | done | |].
  - unfold print_over. rewrite Ht. cbn [mbind option_bind].
    rewrite Hx. cbn [mbind option_bind].
    rewrite output_shown; [done |]. by apply compose_rect.
  - intros i c p j k m Hi Hp Hr3.
    destruct (createText_valid this storage Hv Hs) as (text & Htext & _ & Hc).
    rewrite Hx in Htext. injection Htext as <-.
    by rewrite (Hc i c p j k m).
Qed.

Lemma print_without_marks_witness :
  createCharTable_over sample_table_x sample_text no_files
  = Some sample_table_x ∧
  createText sample_text sample_table_x
  = Some (compose sample_text sample_table_x) ∧
  print_over sample_table_x sample_text 3 4 no_files sample_world
  = Some (mkWorld
            (Console.mk default_attribute
               (Console.trace (console sample_world)
                ++ shown sample_text (compose sample_text sample_table_x) 3 4))
            (cerr sample_world)) ∧
  ∀ i c p j k m,
    str sample_text !! i = Some c → alphabet !! p = Some c →
    Mem.read3 sample_table_x p j k = Some m →
    Mem.read2 (compose sample_text sample_table_x) j
      (i * side sample_text + k)
    = Some (if decide (m = Chr "1") then Chr (textChar sample_text)
            else if decide (m = Chr "0") then Chr (backgroundChar sample_text)
            else m).
Proof.
  apply (print_without_marks sample_table_x sample_text).
  - done.
  - unfold valid. apply (bool_decide_unpack _). by vm_compute.
  - unfold cube, rect. apply (bool_decide_unpack _). by vm_compute.
  - done.
Defined.



Section footprint.
Variables (this : PseudographicText.t).
Local Abbreviation n := (side this).
Local Abbreviation len := (length (str this)).

Lemma spaced_row_length m g bc (r : list cell) :
  g * m ≤ length r →
  length (spaced_row m g bc r) = g * (m + 1) ∧
  length (spaced_row m g bc r ≫= written) = g * (m + 1).
Proof.
  induction g as [|g IH]; intros Hg; [split; reflexivity |].
  destruct IH as [IH1 IH2]; [lia |].
  unfold spaced_row in *. rewrite seq_S, fmap_app, join_app, bind_app.
  rewrite !length_app, IH1, IH2. csimpl. rewrite app_nil_r, bind_app.
  rewrite !length_app, length_fmap, length_take_le
    by (rewrite length_drop; lia).
  assert (∀ l : list cell, length ((Put <$> l) ≫= written) = length l) as ->.
  { intros l. induction l as [|x l IHl]; [done |]. csimpl. by rewrite IHl. }
  rewrite length_take_le by (rewrite length_drop; lia).
  csimpl. lia.
Qed.

Lemma rows_length (f : nat → list Console.event) m a b :
  (∀ j, j < m → length (f j) = a ∧ length (f j ≫= written) = b) →
  length (mjoin (f <$> seq 0 m)) = m * a ∧
  length (mjoin (f <$> seq 0 m) ≫= written) = m * b.
Proof.
  induction m as [|m IH]; intros Hrow; [split; reflexivity |].
  rewrite seq_S, fmap_app, join_app, bind_app, !length_app. csimpl.
  rewrite app_nil_r. destruct (Hrow m) as [-> ->]; [lia |].
  destruct IH as [-> ->]; [intros j Hj; apply Hrow; lia |]. lia.
Qed.

Lemma shown_length text line column :
  rect n (len * n) text →
  length (shown this text line column) = 3 + n * (len * (n + 1) + 2) ∧
  length (shown this text line column ≫= written)
  = n * (len * (n + 1) + 1).
Proof.
  intros [Hl Hw]. unfold shown. rewrite !bind_app, !length_app. csimpl.
  destruct (rows_length (shown_row this text line column) n
              (len * (n + 1) + 2) (len * (n + 1) + 1)) as [-> ->]; [| lia].
  intros j Hj. unfold shown_row.
  destruct (lookup_lt_is_Some_2 text j) as [r Hr]; [lia |]. rewrite Hr.
  pose proof (Forall_lookup_1 _ _ _ _ Hw Hr) as Hlen. simpl in Hlen.
  destruct (spaced_row_length n len (backgroundChar this) r) as [H1 H2];
    [lia |].
  rewrite bind_cons, bind_app. csimpl. rewrite !length_app, H1, H2. csimpl.
  lia.
Qed.

End footprint.

(** X12.  With a font size that is not negative, [output] on a buffer of
    [fontSize] rows of
    [str.size() * fontSize] cells performs [3 + n * (len * (n + 1) + 2)]
    console operations, of which [n * (len * (n + 1) + 1)] are characters:
    in each of the [n = fontSize] rows, [n + 1] characters for each of the
    [len] characters of the content, and the line feed. *)
Theorem output_footprint (this : PseudographicText.t)
  (text : list (list cell)) (line column : Z) (w : Console.t) :
  (0 ≤ fontSize this)%Z →
  rect (side this) (length (str this) * side this) text →
  ∃ evs,
    output this text line column w
    = Some (Console.mk default_attribute (Console.trace w ++ evs)) ∧
    length evs
    = 3 + side this * (length (str this) * (side this + 1) + 2) ∧
    length (evs ≫= written)
    = side this * (length (str this) * (side this + 1) + 1).
Proof.
  intros _ Hr. exists (shown this text line column).
  split; [by apply output_shown |]. by apply shown_length.
Qed.

Lemma output_footprint_witness :
  ∃ evs,
    output sample_text sample_buffer 3 4 (Console.mk 7 [])
    = Some (Console.mk default_attribute
              (Console.trace (Console.mk 7 []) ++ evs)) ∧
    length evs
    = 3 + side sample_text
          * (length (str sample_text) * (side sample_text + 1) + 2) ∧
    length (evs ≫= written)
    = side sample_text
      * (length (str sample_text) * (side sample_text + 1) + 1).
Proof.
  apply (output_footprint sample_text sample_buffer); [done |].
  unfold rect. apply (bool_decide_unpack _). by vm_compute.
Defined.

(** * Points and vectors *)

Section vectors.
Import FirstLab.
Implicit Types (a b c v : Vector2d.t) (p q : Point2d.t) (k : Z).

Lemma int_Some z r : int z = Some r → r = z ∧ (-2147483648 ≤ z ≤ 2147483647)%Z.
Proof. unfold int. case_decide; [by intros [= <-] | done]. Qed.

Lemma int_fits z : (-2147483648 ≤ z ≤ 2147483647)%Z → int z = Some z.
Proof. intros Hz. unfold int. by rewrite decide_True. Qed.

Lemma of_coords_Returns x y v :
  Vector2d.of_coords x y = Returns v →
  v = Vector2d.mk Point2d.default Point2d.default x y ∧
  (0 < x < screenWidth ∧ 0 < y < screenHeight)%Z.
Proof.
  unfold Vector2d.of_coords. case_decide as H; [done |].
  intros [= <-]. split; [done | lia].
Qed.

Lemma of_coords_in_window x y :
  (0 < x < screenWidth ∧ 0 < y < screenHeight)%Z →
  Vector2d.of_coords x y
  = Returns (Vector2d.mk Point2d.default Point2d.default x y).
Proof. intros H. unfold Vector2d.of_coords. rewrite decide_False; [done | lia]. Qed.

Lemma of_coords_outside x y :
  ¬ (0 < x < screenWidth ∧ 0 < y < screenHeight)%Z →
  Vector2d.of_coords x y = Throws (invalid_argument outside_window).
Proof. intros H. unfold Vector2d.of_coords. rewrite decide_True; [done | lia]. Qed.

(** What an operator that ends in [Vector2d(x, y)] returns. *)
Lemma via_of_coords (f g : Z) v :
  (a ← int f; b ← int g; Some (Vector2d.of_coords a b)) = Some (Returns v) →
  v = Vector2d.mk Point2d.default Point2d.default f g ∧
  (0 < f < screenWidth ∧ 0 < g < screenHeight)%Z.
Proof.
  destruct (int f) as [a|] eqn:Ha; [| done]. cbn [mbind option_bind].
  destruct (int g) as [b|] eqn:Hb; [| done]. cbn [mbind option_bind].
  apply int_Some in Ha as [-> _], Hb as [-> _]. intros [= H].
  by apply of_coords_Returns.
Qed.

End vectors.

(** X13.  Whatever the operands hold, a vector returned by [operator+],
    [operator-] or [operator*] has both coordinates inside the window,
    [0 < x < 800] and [0 < y < 600]. *)
Theorem operators_return_window_vectors (a b v : FirstLab.Vector2d.t) (k : Z) :
  FirstLab.Vector2d.operator_plus a b = Some (FirstLab.Returns v) ∨
  FirstLab.Vector2d.operator_minus a b = Some (FirstLab.Returns v) ∨
  FirstLab.Vector2d.operator_times a k = Some (FirstLab.Returns v) →
  FirstLab.Vector2d.in_window v.
Proof.
  unfold FirstLab.Vector2d.operator_plus, FirstLab.Vector2d.operator_minus,
    FirstLab.Vector2d.operator_times, FirstLab.Vector2d.in_window.
  intros [H | [H | H]]; apply via_of_coords in H as [-> H]; exact H.
Qed.

Lemma operators_return_window_vectors_witness :
  FirstLab.Vector2d.in_window
    (FirstLab.Vector2d.mk FirstLab.Point2d.default FirstLab.Point2d.default
       193 260).
Proof.
  apply (operators_return_window_vectors
           (FirstLab.Vector2d.mk FirstLab.Point2d.default
              FirstLab.Point2d.default 185 250)
           (FirstLab.Vector2d.mk FirstLab.Point2d.default
              FirstLab.Point2d.default 8 10) _ 0).
  left. reflexivity.
Defined.

(** X14.  The difference of a vector and itself is never returned: for
    every vector [v], [v - v] throws [invalid_argument]. *)
Theorem operator_minus_self_throws (v : FirstLab.Vector2d.t) :
  FirstLab.Vector2d.operator_minus v v
  = Some (FirstLab.Throws (FirstLab.invalid_argument FirstLab.outside_window)).
Proof.
  unfold FirstLab.Vector2d.operator_minus. rewrite !Z.sub_diag. reflexivity.
Qed.

(** X15.  [operator+] does not depend on the order of its operands: [a + b]
    and [b + a] end the same way, with the same vector when they return. *)
Theorem operator_plus_comm (a b : FirstLab.Vector2d.t) :
  FirstLab.Vector2d.operator_plus a b = FirstLab.Vector2d.operator_plus b a.
Proof.
  unfold FirstLab.Vector2d.operator_plus.
  by rewrite (Z.add_comm (FirstLab.Vector2d.x a)),
    (Z.add_comm (FirstLab.Vector2d.y a)).
Qed.

(** X16.  [dotProduct] is symmetric; [crossProduct] changes sign when the
    operands are exchanged, and the cross product of a vector with itself
    is 0 (where the products fit an [int]). *)
Theorem products_symmetry (a b : FirstLab.Vector2d.t) :
  FirstLab.Vector2d.dotProduct a b = FirstLab.Vector2d.dotProduct b a ∧
  (∀ r r', FirstLab.Vector2d.crossProduct a b = Some r →
           FirstLab.Vector2d.crossProduct b a = Some r' → r' = (- r)%Z) ∧
  (∀ r, FirstLab.Vector2d.crossProduct a a = Some r → r = 0%Z).
Proof.
  unfold FirstLab.Vector2d.dotProduct, FirstLab.Vector2d.crossProduct.
  split_and!.
  - by rewrite (Z.mul_comm (FirstLab.Vector2d.x a)),
      (Z.mul_comm (FirstLab.Vector2d.y a)).
  - intros r r'.
    rewrite (Z.mul_comm (FirstLab.Vector2d.x b) (FirstLab.Vector2d.y a)),
      (Z.mul_comm (FirstLab.Vector2d.x a) (FirstLab.Vector2d.y b)).
    destruct (FirstLab.int (FirstLab.Vector2d.y b * FirstLab.Vector2d.x a))
      as [u|]; [| done].
    destruct (FirstLab.int (FirstLab.Vector2d.y a * FirstLab.Vector2d.x b))
      as [u'|]; [| done].
    cbn [mbind option_bind]. intros Hr Hr'.
    apply int_Some in Hr as [-> _], Hr' as [-> _]. lia.
  - intros r.
    destruct (FirstLab.int (FirstLab.Vector2d.x a * FirstLab.Vector2d.y a))
      as [u|]; [| done].
    cbn [mbind option_bind]. intros Hr. apply int_Some in Hr as [-> _]. lia.
Qed.

(** X17.  Subtraction undoes addition for window vectors: when [a + b]
    returns [c] and the coordinates of [a] are inside the window, [c - b]
    returns a vector with the coordinates of [a]. *)
Theorem operator_plus_minus (a b c : FirstLab.Vector2d.t) :
  FirstLab.Vector2d.operator_plus a b = Some (FirstLab.Returns c) →
  FirstLab.Vector2d.in_window a →
  ∃ a', FirstLab.Vector2d.operator_minus c b = Some (FirstLab.Returns a') ∧
        FirstLab.Vector2d.x a' = FirstLab.Vector2d.x a ∧
        FirstLab.Vector2d.y a' = FirstLab.Vector2d.y a.
Proof.
  unfold FirstLab.Vector2d.operator_plus. intros H Ha.
  destruct (FirstLab.int (FirstLab.Vector2d.x a + FirstLab.Vector2d.x b))
    as [sx|] eqn:Hx; [| done].
  destruct (FirstLab.int (FirstLab.Vector2d.y a + FirstLab.Vector2d.y b))
    as [sy|] eqn:Hy; [| done].
  cbn [mbind option_bind] in H. injection H as H.
  apply int_Some in Hx as [-> Hx], Hy as [-> Hy].
  apply of_coords_Returns in H as [-> Hc].
  unfold FirstLab.Vector2d.operator_minus, FirstLab.Vector2d.in_window in *.
  simpl.
  replace (FirstLab.Vector2d.x a + FirstLab.Vector2d.x b
           - FirstLab.Vector2d.x b)%Z with (FirstLab.Vector2d.x a) by lia.
  replace (FirstLab.Vector2d.y a + FirstLab.Vector2d.y b
           - FirstLab.Vector2d.y b)%Z with (FirstLab.Vector2d.y a) by lia.
  unfold FirstLab.screenWidth, FirstLab.screenHeight in Ha.
  rewrite !int_fits by lia. cbn [mbind option_bind].
  rewrite of_coords_in_window by done. by eexists.
Qed.

Lemma operator_plus_minus_witness :
  ∃ a',
    FirstLab.Vector2d.operator_minus
      (FirstLab.Vector2d.mk FirstLab.Point2d.default FirstLab.Point2d.default
         58 60)
      (FirstLab.Vector2d.mk FirstLab.Point2d.default FirstLab.Point2d.default
         8 10)
    = Some (FirstLab.Returns a') ∧
    FirstLab.Vector2d.x a' = 50%Z ∧ FirstLab.Vector2d.y a' = 50%Z.
Proof.
  apply (operator_plus_minus
           (FirstLab.Vector2d.mk FirstLab.Point2d.default
              FirstLab.Point2d.default 50 50)
           (FirstLab.Vector2d.mk FirstLab.Point2d.default
              FirstLab.Point2d.default 8 10)).
  - reflexivity.
  - unfold FirstLab.Vector2d.in_window. simpl.
    unfold FirstLab.screenWidth, FirstLab.screenHeight. lia.
Defined.

(** X18.  The vector between two points of the window is always built,
    without overflow, with coordinates strictly between minus and plus
    the window's sides; when the head point is not strictly right of and
    above the end point (two equal points, say), its coordinates are ones
    that [Vector2d(x, y)] rejects. *)
Theorem of_points_in_window (x y x' y' : Z) (p q : FirstLab.Point2d.t) :
  FirstLab.Point2d.make x y FirstLab.screenWidth FirstLab.screenHeight
  = FirstLab.Returns p →
  FirstLab.Point2d.make x' y' FirstLab.screenWidth FirstLab.screenHeight
  = FirstLab.Returns q →
  ∃ v,
    FirstLab.Vector2d.of_points p q = Some v ∧
    FirstLab.Vector2d.x v = (x - x')%Z ∧
    FirstLab.Vector2d.y v = (y - y')%Z ∧
    (- FirstLab.screenWidth < FirstLab.Vector2d.x v < FirstLab.screenWidth)%Z ∧
    (- FirstLab.screenHeight < FirstLab.Vector2d.y v < FirstLab.screenHeight)%Z
    ∧
    ((x ≤ x' ∨ y ≤ y')%Z →
     FirstLab.Vector2d.of_coords (FirstLab.Vector2d.x v) (FirstLab.Vector2d.y v)
     = FirstLab.Throws (FirstLab.invalid_argument FirstLab.outside_window)).
Proof.
  unfold FirstLab.Point2d.make, FirstLab.screenWidth, FirstLab.screenHeight.
  case_decide as Hp; [done |]. intros [= <-].
  case_decide as Hq; [done |]. intros [= <-].
  unfold FirstLab.Vector2d.of_points. simpl.
  rewrite !int_fits by lia. cbn [mbind option_bind].
  eexists. split; [done |]. simpl. split_and!; try lia; try done.
  intros H. apply of_coords_outside. lia.
Qed.

Lemma of_points_in_window_witness :
  ∃ v,
    FirstLab.Vector2d.of_points (FirstLab.Point2d.mk 200 300)
      (FirstLab.Point2d.mk 15 50) = Some v ∧
    FirstLab.Vector2d.x v = (200 - 15)%Z ∧
    FirstLab.Vector2d.y v = (300 - 50)%Z ∧
    (- FirstLab.screenWidth < FirstLab.Vector2d.x v < FirstLab.screenWidth)%Z ∧
    (- FirstLab.screenHeight < FirstLab.Vector2d.y v < FirstLab.screenHeight)%Z
    ∧
    ((200 ≤ 15 ∨ 300 ≤ 50)%Z →
     FirstLab.Vector2d.of_coords (FirstLab.Vector2d.x v) (FirstLab.Vector2d.y v)
     = FirstLab.Throws (FirstLab.invalid_argument FirstLab.outside_window)).
Proof.
  apply (of_points_in_window 200 300 15 50); reflexivity.
Defined.

(** X19.  For a vector with coordinates inside the window, [v * k]
    returns exactly when [k] is at least 1 and both products stay inside
    the window, and then with the coordinates multiplied by [k]. *)
Theorem operator_times_returns (v : FirstLab.Vector2d.t) (k : Z) :
  FirstLab.Vector2d.in_window v →
  (∃ r, FirstLab.Vector2d.operator_times v k = Some (FirstLab.Returns r))
  ↔ (1 ≤ k ∧ FirstLab.Vector2d.x v * k < FirstLab.screenWidth
     ∧ FirstLab.Vector2d.y v * k < FirstLab.screenHeight)%Z.
Proof.
  unfold FirstLab.Vector2d.in_window, FirstLab.Vector2d.operator_times,
    FirstLab.screenWidth, FirstLab.screenHeight.
  intros Hv. split.
  - intros [r Hr]. apply via_of_coords in Hr as [_ Hr].
    unfold FirstLab.screenWidth, FirstLab.screenHeight in Hr. nia.
  - intros Hk. rewrite !int_fits by nia. cbn [mbind option_bind].
    rewrite of_coords_in_window; [by eexists |].
    unfold FirstLab.screenWidth, FirstLab.screenHeight. nia.
Qed.

Lemma operator_times_returns_witness :
  (∃ r, FirstLab.Vector2d.operator_times
          (FirstLab.Vector2d.mk FirstLab.Point2d.default
             FirstLab.Point2d.default 8 10) 3
        = Some (FirstLab.Returns r))
  ↔ (1 ≤ 3 ∧ 8 * 3 < FirstLab.screenWidth ∧ 10 * 3 < FirstLab.screenHeight)%Z.
Proof.
  apply (operator_times_returns
           (FirstLab.Vector2d.mk FirstLab.Point2d.default
              FirstLab.Point2d.default 8 10) 3).
  unfold FirstLab.Vector2d.in_window. simpl.
  unfold FirstLab.screenWidth, FirstLab.screenHeight. lia.
Defined.
